(** * Dynamite model layer (Source/Dynamite/Models.h)

    A shallow embedding of the bookkeeping layer of [Models.h]: the parameter
    registry [ModelParameters], the model wrapper [TModel], the [Batch]
    combinators and the composition operator [>>], followed by the
    properties of the specification stated and settled against them.

    Conventions of the embedding.
    - [std::wstring] is [string]; [std::map<std::wstring, V>] is the list of
      its bindings in ascending key order ([wmap V]), because the traversal
      order of the two maps of a registry is observable.
    - [std::unordered_set<Variable>] is [gset CNTK_Variable]; the hash and
      the equality of [Variable] (the identity of the handle) are the
      [Countable] and [EqDecision] instances of the library interface.
    - [std::shared_ptr<ModelParameters>] is [option ModelParameters]: a
      registry is never changed once built, so a shared registry is the same
      value in every place that holds it, and [None] is the null handle.
    - [assert] is taken as checked. A failed assertion, a logic error and a
      step whose behaviour C++ leaves undefined end the call with [Raise] or
      [Throws].
    - The callable of [Map] over a unary model empties [res] before it
      reads its input, so it matters whether the two references designate
      one vector: its input is a [VectorRef], the vector [res] itself or
      another vector. The callable of [Map] over a binary model is taken on
      inputs that are vectors other than [res].
    - Code that reads or writes process-wide state runs in the monad
      [M S A := S -> Outcome S A]; a model's callable is such code. *)

From stdpp Require Import gmap strings list pretty sorting.
From Stdlib Require Import NArith.

Set Default Proof Using "Type".
#[local] Set Warnings "-clear-no-such-hyp".

(** ** Strings and ordered maps *)

Abbreviation wstring := string (only parsing).

(** [std::map<std::wstring, V>], as the list of its bindings in key order. *)
Definition wmap (V : Type) : Type := list (wstring * V).

(** [m.find(k)]: the binding whose key is equivalent to [k], if any. *)
Fixpoint wmap_find {V : Type} (k : wstring) (m : wmap V) : option V :=
  match m with
  | [] => None
  | (k', v) :: m' =>
      match String.compare k k' with
      | Eq => Some v
      | _ => wmap_find k m'
      end
  end.

(** [m.insert(make_pair(k, v))]: the binding goes to its place in key order;
    when the key is already bound the map is left as it is. *)
Fixpoint wmap_insert {V : Type} (k : wstring) (v : V) (m : wmap V) : wmap V :=
  match m with
  | [] => [(k, v)]
  | (k', v') :: m' =>
      match String.compare k k' with
      | Lt => (k, v) :: (k', v') :: m'
      | Eq => (k', v') :: m'
      | Gt => (k', v') :: wmap_insert k v m'
      end
  end.

(** A map written as a braced list of pairs, [{ {k1, v1}, {k2, v2} }]:
    the pairs are inserted one after the other. *)
Definition wmap_of_list {V : Type} (l : list (wstring * V)) : wmap V :=
  fold_left (fun m kv => wmap_insert kv.1 kv.2 m) l [].

(** The keys of a map are strictly ascending. *)
Definition key_lt {V : Type} (a b : wstring * V) : Prop :=
  String.compare a.1 b.1 = Lt.

Inductive wmap_sorted {V : Type} : wmap V → Prop :=
| wmap_sorted_nil : wmap_sorted []
| wmap_sorted_one kv : wmap_sorted [kv]
| wmap_sorted_cons kv kv' m :
    key_lt kv kv' → wmap_sorted (kv' :: m) → wmap_sorted (kv :: kv' :: m).

(** Every key of [m] is above [k]. *)
Definition above {V : Type} (k : wstring) (m : wmap V) : Prop :=
  Forall (fun kv => String.compare k kv.1 = Lt) m.

(** ** Errors *)

(** Modelled from the spec: [LogicError] is defined by the library, outside
    [Models.h]; the specification calls it a "hard logic-error signal, not
    recoverable", and the code after each call of it relies on its not
    returning. It is taken as a throw that ends the call. *)
Inductive Error : Type :=
| LogicError (msg : string)
| AssertionFailed (condition : string)
| UndefinedBehavior (what : string).

(** The result of a call that may throw and touches no process-wide state. *)
Inductive Result (A : Type) : Type :=
| Ok (a : A)
| Raise (e : Error).
Arguments Ok {A} a.
Arguments Raise {A} e.

(** The result of a call on a state [S]: it returns, it throws (the state
    is the one at the throw), or the fuel of a loop ran out. *)
Inductive Outcome (S A : Type) : Type :=
| Returns (a : A) (s : S)
| Throws (e : Error) (s : S)
| OutOfFuel.
Arguments Returns {S A} a s.
Arguments Throws {S A} e s.
Arguments OutOfFuel {S A}.

Definition M (S A : Type) : Type := S → Outcome S A.

Definition ret {S A : Type} (a : A) : M S A := fun s => Returns a s.

Definition bind {S A B : Type} (m : M S A) (k : A → M S B) : M S B :=
  fun s =>
    match m s with
    | Returns a s' => k a s'
    | Throws e s' => Throws e s'
    | OutOfFuel => OutOfFuel
    end.

Definition throw {S A : Type} (e : Error) : M S A := fun s => Throws e s.

Definition gets {S A : Type} (f : S → A) : M S A := fun s => Returns (f s) s.

Definition modify {S : Type} (f : S → S) : M S unit := fun s => Returns tt (f s).

Notation "'let*' x ':=' m 'in' k" := (bind m (fun x => k))
  (at level 10, x name, m at level 100, k at level 200).
Notation "m ;; k" := (bind m (fun _ => k))
  (at level 100, k at level 200, right associativity).

(** ** Process-wide state *)

(** [SIZE_MAX] of a 64-bit target. *)
Definition SIZE_MAX : N := (2 ^ 64 - 1)%N.

(** [i++] on a [size_t]. *)
Definition size_t_succ (i : N) : N := ((i + 1) mod 2 ^ 64)%N.

(** The statics of the header ([Batch::CurrentMapIndex()]'s [i] and
    [g_numAPICallsSoFar]) and the state of the wrapped library. *)
Record World (L : Type) : Type := mkWorld {
  CurrentMapIndex : N;
  g_numAPICallsSoFar : N;
  library : L
}.
Arguments mkWorld {L} _ _ _.
Arguments CurrentMapIndex {L} _.
Arguments g_numAPICallsSoFar {L} _.
Arguments library {L} _.

(** The statics as their initialisers leave them. *)
Definition initial_World {L : Type} (l : L) : World L :=
  mkWorld SIZE_MAX 0%N l.

Definition set_CurrentMapIndex {L : Type} (i : N) (w : World L) : World L :=
  mkWorld i (g_numAPICallsSoFar w) (library w).

(** [CountAPICalls(n)]. *)
Definition CountAPICalls {L : Type} (n : N) : M (World L) N :=
  fun w =>
    let c := ((g_numAPICallsSoFar w + n) mod 2 ^ 64)%N in
    Returns c (mkWorld (CurrentMapIndex w) c (library w)).

(** ** The wrapped library

    What [Models.h] uses of [CNTKLibrary.h]: the handle type [Variable]
    ([Parameter] is a [Variable]), with its hash and equality, the name and
    the printed form of a handle, the rank of its shape, a default-built
    handle and the two graph operations of [Batch::sum]. *)

Inductive Axis : Type :=
| Axis_static (n : Z)
| Axis_DropLastAxis.

Class CNTKLibrary : Type := {
  CNTK_Variable : Type;
  CNTK_Variable_eq_dec :: EqDecision CNTK_Variable;
  CNTK_Variable_countable :: Countable CNTK_Variable;
  Name : CNTK_Variable → wstring;
  AsString : CNTK_Variable → wstring;
  ShapeRank : CNTK_Variable → N;
  Variable_default : CNTK_Variable;
  LibraryState : Type;
  Splice : list CNTK_Variable → Axis → M (World LibraryState) CNTK_Variable;
  ReduceSum : CNTK_Variable → Axis → M (World LibraryState) CNTK_Variable
}.

Section Dynamite.
Context `{CNTK : CNTKLibrary}.

Abbreviation CNTK_Parameter := CNTK_Variable (only parsing).
Abbreviation Process := (World LibraryState).

(** ** ModelParameters *)

#[local] Unset Elimination Schemes.
Inductive ModelParameters : Type :=
| mkModelParameters
    (m_parameters : wmap CNTK_Parameter)
    (m_nestedParameters : wmap ModelParameters).
#[local] Set Elimination Schemes.

Definition m_parameters (r : ModelParameters) : wmap CNTK_Parameter :=
  match r with mkModelParameters ps _ => ps end.

Definition m_nestedParameters (r : ModelParameters) : wmap ModelParameters :=
  match r with mkModelParameters _ ns => ns end.

Definition ModelParametersPtr : Type := option ModelParameters.

(** The first loop of the constructor: entries with a null handle are
    skipped, the others are inserted. *)
Definition insert_nested (m : wmap ModelParameters)
    (kv : wstring * ModelParametersPtr) : wmap ModelParameters :=
  match kv.2 with
  | Some r => wmap_insert kv.1 r m
  | None => m
  end.

(** The second loop of the constructor: a parameter without a name is a
    logic error, the others are inserted under their names. *)
Fixpoint insert_parameters (m : wmap CNTK_Parameter)
    (parameters : list CNTK_Parameter) : Result (wmap CNTK_Parameter) :=
  match parameters with
  | [] => Ok m
  | p :: rest =>
      if decide (Name p = EmptyString)
      then Raise (LogicError "parameters must be named")
      else insert_parameters (wmap_insert (Name p) p m) rest
  end.

(** [ModelParameters::ModelParameters(parameters, parentParameters)]. *)
Definition ModelParameters_new (parameters : list CNTK_Parameter)
    (parentParameters : wmap ModelParametersPtr) : Result ModelParameters :=
  let nested := fold_left insert_nested parentParameters [] in
  match insert_parameters [] parameters with
  | Ok ps => Ok (mkModelParameters ps nested)
  | Raise e => Raise e
  end.

(** The first parameter of a list that bears a given name. *)
Definition first_named (name : wstring) (parameters : list CNTK_Parameter)
    : option CNTK_Parameter :=
  List.find (fun p => bool_decide (Name p = name)) parameters.

(** The entries of a map of handles whose handle is not null. *)
Definition nonnull (nested : wmap ModelParametersPtr) : wmap ModelParameters :=
  omap (fun kv => match kv.2 with Some r => Some (kv.1, r) | None => None end)
       nested.

(** [ModelParameters::operator[](name)]. *)
Definition ModelParameters_index (r : ModelParameters) (name : wstring)
    : Result CNTK_Parameter :=
  match wmap_find name (m_parameters r) with
  | None => Raise (LogicError ("no such parameter: " +:+ name))
  | Some p => Ok p
  end.

(** [ModelParameters::Nested(name)]. *)
Definition Nested (r : ModelParameters) (name : wstring)
    : Result ModelParameters :=
  match wmap_find name (m_nestedParameters r) with
  | None => Raise (LogicError ("no such captured model: " +:+ name))
  | Some r' => Ok r'
  end.

(** The state of [CollectParameters]: the vector [res] and the set
    [visited]. *)
Definition Collected : Type := list CNTK_Parameter * gset CNTK_Variable.

(** One step of the first loop of [CollectParameters]:
    [if (visited.insert(p).second) res.push_back(p)]. *)
Definition collect_one (st : Collected) (p : CNTK_Parameter) : Collected :=
  if decide (p ∈ st.2) then st else (st.1 ++ [p], {[p]} ∪ st.2).

(** The elements of [l] that [vis] does not hold yet, each one once and
    where it first occurs: what the first loop appends to [res]. *)
Fixpoint unvisited (vis : gset CNTK_Variable) (l : list CNTK_Parameter)
    : list CNTK_Parameter :=
  match l with
  | [] => []
  | p :: l' =>
      if decide (p ∈ vis) then unvisited vis l'
      else p :: unvisited ({[p]} ∪ vis) l'
  end.

(** [ModelParameters::CollectParameters(res, visited)]. *)
Fixpoint CollectParameters (r : ModelParameters) (st : Collected) : Collected :=
  match r with
  | mkModelParameters ps ns =>
      let st1 := fold_left (fun st kv => collect_one st kv.2) ps st in
      fold_left (fun st kv => CollectParameters kv.2 st) ns st1
  end.

(** The parameters of a registry in the order the specification gives:
    those of the registry itself in the order of its map, then those of
    each nested registry, recursively, in the order of the nested map. *)
Fixpoint listed (r : ModelParameters) : list CNTK_Parameter :=
  match r with
  | mkModelParameters ps ns => ps.*2 ++ concat (map (fun kv => listed kv.2) ns)
  end.

(** A list without the repetitions of its elements: each one stays where
    it first occurs. *)
Fixpoint first_occurrences (l : list CNTK_Parameter) : list CNTK_Parameter :=
  match l with
  | [] => []
  | p :: l' => p :: filter (fun q => q ≠ p) (first_occurrences l')
  end.

(** [reaches r p]: the registry [r] holds [p], or a registry nested in it
    at any depth does. *)
Inductive reaches : ModelParameters → CNTK_Parameter → Prop :=
| reaches_here r name p :
    (name, p) ∈ m_parameters r → reaches r p
| reaches_nested r name r' p :
    (name, r') ∈ m_nestedParameters r → reaches r' p → reaches r p.

(** What [LogParameters] writes: the lines sent to [stderr], each with the
    name and the value that [fprintf] renders as ["  %-30S : %S\n"], and the
    debug name that [DebugUpdateName] leaves on each handle. *)
Record LogLine : Type := mkLogLine {
  printed_name : wstring;
  printed_value : wstring
}.

Record LogState : Type := mkLogState {
  stderr : list LogLine;
  debug_name : gmap CNTK_Variable wstring
}.

(** [fprintf(stderr, "  %-30S : %S\n", name, value)]. *)
Definition fprintf_stderr (name value : wstring) (s : LogState) : LogState :=
  mkLogState (stderr s ++ [mkLogLine name value]) (debug_name s).

(** Modelled from the spec: [Variable::DebugUpdateName] is declared in
    [CNTKLibrary.h] and defined by the library, outside [Models.h]; by the
    specification the call "annotates" the parameter with the name it is
    given, so it is taken to set the debug name of the handle and nothing
    else. *)
Definition DebugUpdateName (p : CNTK_Parameter) (name : wstring)
    (s : LogState) : LogState :=
  mkLogState (stderr s) (<[p := name]> (debug_name s)).

(** The body of the second loop of [LogParameters]. *)
Definition log_one (prefix : wstring) (s : LogState)
    (kv : wstring * CNTK_Parameter) : LogState :=
  let name := prefix +:+ kv.1 in
  DebugUpdateName kv.2 name (fprintf_stderr name (AsString kv.2) s).

(** [ModelParameters::LogParameters(prefix)]. *)
Fixpoint LogParameters (r : ModelParameters) (prefix : wstring)
    (s : LogState) : LogState :=
  match r with
  | mkModelParameters ps ns =>
      let s1 := fold_left (fun s kv => LogParameters kv.2 (kv.1 +:+ ".") s) ns s in
      fold_left (log_one prefix) ps s1
  end.

(** ** TModel *)

(** [TModel<Base>]: the callable [Base] and the handle of the registry
    ([get()] of the [ModelParametersPtr] base). *)
Record TModel (Base : Type) : Type := mkTModel {
  call : Base;
  get : ModelParametersPtr
}.
Arguments mkTModel {Base} _ _.
Arguments call {Base} _.
Arguments get {Base} _.

(** [TModel(f)]: the handle is default-built, that is null. *)
Definition TModel_plain {Base : Type} (f : Base) : TModel Base :=
  mkTModel f None.

(** [TModel(parameters, nested, f)]. *)
Definition TModel_new {Base : Type} (parameters : list CNTK_Parameter)
    (nested : wmap ModelParametersPtr) (f : Base) : Result (TModel Base) :=
  match ModelParameters_new parameters nested with
  | Ok r => Ok (mkTModel f (Some r))
  | Raise e => Raise e
  end.

(** [TModel(parameters, f)]. *)
Definition TModel_with_parameters {Base : Type}
    (parameters : list CNTK_Parameter) (f : Base) : Result (TModel Base) :=
  TModel_new parameters [] f.

(** [*get()]: going through a null handle is undefined. *)
Definition deref (p : ModelParametersPtr) : Result ModelParameters :=
  match p with
  | Some r => Ok r
  | None => Raise (UndefinedBehavior "null ModelParametersPtr dereferenced")
  end.

(** [TModel::operator[](name)]. *)
Definition TModel_index {Base : Type} (m : TModel Base) (name : wstring)
    : Result CNTK_Parameter :=
  match deref (get m) with
  | Ok r => ModelParameters_index r name
  | Raise e => Raise e
  end.

(** [TModel::Nested(name)]. *)
Definition TModel_Nested {Base : Type} (m : TModel Base) (name : wstring)
    : Result ModelParameters :=
  match deref (get m) with
  | Ok r => Nested r name
  | Raise e => Raise e
  end.

(** [TModel::Parameters()]. *)
Definition Parameters {Base : Type} (m : TModel Base)
    : Result (list CNTK_Parameter) :=
  match deref (get m) with
  | Ok r => Ok (CollectParameters r ([], ∅)).1
  | Raise e => Raise e
  end.

(** [TModel::LogParameters()]. *)
Definition TModel_LogParameters {Base : Type} (m : TModel Base)
    (s : LogState) : Result LogState :=
  match deref (get m) with
  | Ok r => Ok (LogParameters r EmptyString s)
  | Raise e => Raise e
  end.

(** The state a sequence model runs on: the vector [res] it is handed by
    reference, and the process. *)
Definition SeqState : Type := list CNTK_Variable * Process.

Definition UnaryModel : Type :=
  TModel (CNTK_Variable → M Process CNTK_Variable).
Definition BinaryModel : Type :=
  TModel (CNTK_Variable → CNTK_Variable → M Process CNTK_Variable).
(** A vector handed to a sequence model by const reference, as the callable
    that holds [res] by reference meets it: the vector [res] itself, or
    another vector. *)
Inductive VectorRef : Type :=
| other_vector (v : list CNTK_Variable)
| res_itself.

(** The elements behind a const reference at the moment it is read. *)
Definition elements (a : VectorRef) : M SeqState (list CNTK_Variable) :=
  match a with
  | other_vector v => ret v
  | res_itself => gets (fun s => s.1)
  end.

Definition UnarySequenceModel : Type :=
  TModel (VectorRef → M SeqState unit).
(** The first argument of the callable bounds the iterations its loop may
    run: the loop of [Map(BinaryModel)] reads its index from the process. *)
Definition BinarySequenceModel : Type :=
  TModel (nat → list CNTK_Variable → list CNTK_Variable → M SeqState unit).

(** A model whose callable computes a value and touches nothing else. *)
Definition pure_unary (f : CNTK_Variable → CNTK_Variable)
    (p : ModelParametersPtr) : UnaryModel :=
  mkTModel (fun x => ret (f x)) p.

Definition pure_binary (f : CNTK_Variable → CNTK_Variable → CNTK_Variable)
    (p : ModelParametersPtr) : BinaryModel :=
  mkTModel (fun x y => ret (f x y)) p.

(** ** Batch *)

(** A call on the process, made by code that also holds [res]. *)
Definition in_process {A : Type} (m : M Process A) : M SeqState A :=
  fun s =>
    match m s.2 with
    | Returns a w => Returns a (s.1, w)
    | Throws e w => Throws e (s.1, w)
    | OutOfFuel => OutOfFuel
    end.

Definition on_res (f : list CNTK_Variable → list CNTK_Variable)
    : M SeqState unit :=
  modify (fun s => (f s.1, s.2)).

(** [for (const auto& x : l) body(x);] *)
Fixpoint for_each {S A : Type} (l : list A) (body : A → M S unit) : M S unit :=
  match l with
  | [] => ret tt
  | x :: l' => body x ;; for_each l' body
  end.

(** The callable of [Batch::Map(UnaryModel f)]: [res.clear()] comes first,
    and the range of the loop is what [batch] holds after it, which is
    nothing when [batch] is [res]. *)
Definition Map_unary_body (f : UnaryModel) (batch : VectorRef)
    : M SeqState unit :=
  on_res (fun _ => []) ;;
  let* range := elements batch in
  for_each range (fun x =>
    let* v := in_process (call f x) in
    on_res (fun res => res ++ [v])).

(** [Batch::Map(UnaryModel f)]. *)
Definition Map_unary (f : UnaryModel) : Result UnarySequenceModel :=
  TModel_new [] (wmap_of_list [("f"%string, get f)]) (Map_unary_body f).

(** [v[i]] on a vector: outside the vector it is undefined. *)
Definition subscript {S : Type} (v : list CNTK_Variable) (i : N)
    : M S CNTK_Variable :=
  if (i <? N.of_nat (length v))%N then
    match v !! N.to_nat i with
    | Some a => ret a
    | None => throw (UndefinedBehavior "vector subscript out of range")
    end
  else throw (UndefinedBehavior "vector subscript out of range").

(** [res[i] = a]. *)
Definition assign_res (i : N) (a : CNTK_Variable) : M SeqState unit :=
  fun s =>
    if (i <? N.of_nat (length s.1))%N
    then Returns tt (<[N.to_nat i := a]> s.1, s.2)
    else Throws (UndefinedBehavior "vector subscript out of range") s.

(** [res.resize(n)]. *)
Definition resize (n : nat) (res : list CNTK_Variable) : list CNTK_Variable :=
  take n res ++ replicate (n - length res) Variable_default.

Definition get_index : M SeqState N := gets (fun s => CurrentMapIndex s.2).

Definition set_index (i : N) : M SeqState unit :=
  modify (fun s => (s.1, set_CurrentMapIndex i s.2)).

(** The outcome [o] with the index showing [n] if it is a return. *)
Definition leaving_index {A : Type} (n : N) (o : Outcome SeqState A)
    : Outcome SeqState A :=
  match o with
  | Returns a s => Returns a (s.1, set_CurrentMapIndex n s.2)
  | _ => o
  end.

(** In [res[i] = f(x[i], y[i])] the element [res[i]] is designated after
    the call has returned since C++17; before, the two may come in either
    order. *)
Inductive AssignmentOrder : Type :=
| call_then_element
| element_then_call.

(** The loop of [Batch::Map(BinaryModel f)] from its test on: the index [i]
    is the static behind [CurrentMapIndex()], read again at every use. *)
Fixpoint Map_binary_loop (order : AssignmentOrder) (fuel : nat)
    (f : BinaryModel) (x y : list CNTK_Variable) : M SeqState unit :=
  match fuel with
  | O => fun _ => OutOfFuel
  | S fuel' =>
      let* i := get_index in
      if (i <? N.of_nat (length x))%N then
        let* xi := subscript x i in
        let* yi := subscript y i in
        let* v := in_process (call f xi yi) in
        let* j := match order with
                  | call_then_element => get_index
                  | element_then_call => ret i
                  end in
        assign_res j v ;;
        let* k := get_index in
        set_index (size_t_succ k) ;;
        Map_binary_loop order fuel' f x y
      else ret tt
  end.

(** The callable of [Batch::Map(BinaryModel f)]. *)
Definition Map_binary_body (order : AssignmentOrder) (f : BinaryModel)
    (fuel : nat) (x y : list CNTK_Variable) : M SeqState unit :=
  (if decide (length y = length x) then ret tt
   else throw (AssertionFailed "y.size() == x.size()")) ;;
  on_res (resize (length x)) ;;
  set_index 0 ;;
  Map_binary_loop order fuel f x y ;;
  set_index SIZE_MAX.

(** [Batch::Map(BinaryModel f)]. *)
Definition Map_binary (order : AssignmentOrder) (f : BinaryModel)
    : Result BinarySequenceModel :=
  TModel_new [] (wmap_of_list [("f"%string, get f)]) (Map_binary_body order f).

(** The calls of a unary model on the elements of a sequence, one after
    the other, with the values they return in the same order: what the
    specification asks of [Map] over a unary model. *)
Fixpoint each_applied (f : CNTK_Variable → M Process CNTK_Variable)
    (batch : list CNTK_Variable) : M Process (list CNTK_Variable) :=
  match batch with
  | [] => ret []
  | x :: batch' =>
      let* v := f x in
      let* vs := each_applied f batch' in
      ret (v :: vs)
  end.

(** A binary model that, whenever it returns, leaves the map index as it
    found it. *)
Definition keeps_index (f : BinaryModel) : Prop :=
  ∀ a b w v w',
    call f a b w = Returns v w' → CurrentMapIndex w' = CurrentMapIndex w.

(** The loop of [Map] over a binary model as the specification words it:
    element [k] is computed by a call made while the index shows [k], and
    is stored at place [k]. *)
Fixpoint Map_binary_indexed (f : BinaryModel) (k : nat)
    (x y : list CNTK_Variable) : M SeqState unit :=
  match x, y with
  | xk :: x', yk :: y' =>
      set_index (N.of_nat k) ;;
      let* v := in_process (call f xk yk) in
      assign_res (N.of_nat k) v ;;
      Map_binary_indexed f (S k) x' y'
  | _, _ => ret tt
  end.

(** [Map] over a binary model as the specification words it: the lengths
    are checked, the output gets the length of the inputs, the elements are
    computed under their indices, and the index shows [SIZE_MAX] again. *)
Definition Map_binary_as_specified (f : BinaryModel)
    (x y : list CNTK_Variable) : M SeqState unit :=
  (if decide (length y = length x) then ret tt
   else throw (AssertionFailed "y.size() == x.size()")) ;;
  on_res (resize (length x)) ;;
  Map_binary_indexed f 0 x y ;;
  set_index SIZE_MAX.

(** [(int)n] for a [size_t] [n]. *)
Definition int_of_size_t (n : N) : Z :=
  ((Z.of_N n + 2 ^ 31) mod 2 ^ 32 - 2 ^ 31)%Z.

(** [Batch::sum(const vector<Variable>&)]: [batch.front()] is read first,
    and on an empty vector that is undefined. *)
Definition Batch_sum (batch : list CNTK_Variable) : M Process CNTK_Variable :=
  match batch with
  | [] => throw (UndefinedBehavior "front() of an empty vector")
  | first :: _ =>
      let axis := int_of_size_t (ShapeRank first) in
      CountAPICalls 2 ;;
      let* spliced := Splice batch (Axis_static axis) in
      ReduceSum spliced Axis_DropLastAxis
  end.

(** [Batch::sum(const vector<vector<Variable>>&)]. *)
Definition Batch_sum_nested (batch : list (list CNTK_Variable))
    : M Process CNTK_Variable :=
  let allSummands :=
    fold_left (fun acc batchItem =>
                 fold_left (fun acc seqItem => acc ++ [seqItem]) batchItem acc)
              batch [] in
  Batch_sum allSummands.

(** ** Composition *)

(** [before >> after]. The operands are [UnaryBroadcastingModel]s, that is
    [UnaryModel]s with one more way to call them; the result is built as a
    [UnaryModel]. *)
Definition compose (before after : UnaryModel) : Result UnaryModel :=
  TModel_new []
    (wmap_of_list [("f"%string, get before); ("g"%string, get after)])
    (fun x => let* v := call before x in call after v).

End Dynamite.

Arguments mkTModel {CNTK Base} _ _.
Arguments call {CNTK Base} _.
Arguments get {CNTK Base} _.

(** ** A small library to run the definitions on

    Handles are numbers; [1] and [2] bear the same name and [0] bears none.
    The library has no state of its own, [Splice] adds up the handles it is
    given and [ReduceSum] gives back its argument. *)

Definition demo_Name (v : N) : string :=
  match v with
  | 0%N => ""
  | 1%N => "W"
  | 2%N => "W"
  | 3%N => "b"
  | 4%N => "E"
  | _ => "p"
  end.

#[local] Instance demo_library : CNTKLibrary := {|
  CNTK_Variable := N;
  Name := demo_Name;
  AsString := fun _ => "<tensor>"%string;
  ShapeRank := fun _ => 1%N;
  Variable_default := 0%N;
  LibraryState := unit;
  Splice := fun l _ => ret (foldr N.add 0%N l);
  ReduceSum := fun v _ => ret v
|}.

Definition demo_world : World unit := initial_World tt.

(** A registry with one parameter, one with none, and two that nest them:
    [demo_shared] holds [demo_leaf] twice, [demo_deep] holds it two levels
    down. *)
Definition demo_leaf : ModelParameters :=
  mkModelParameters [("W"%string, 1%N)] [].

Definition demo_empty : ModelParameters := mkModelParameters [] [].

Definition demo_shared : ModelParameters :=
  mkModelParameters [("E"%string, 4%N)]
    [("a"%string, mkModelParameters [("b"%string, 3%N)] [("x"%string, demo_leaf)]);
     ("c"%string, demo_leaf)].

Definition demo_deep : ModelParameters :=
  mkModelParameters []
    [("a"%string, mkModelParameters [] [("b"%string, demo_leaf)])].

Definition demo_nested : wmap ModelParametersPtr :=
  [("f"%string, Some demo_empty); ("g"%string, Some demo_leaf);
   ("z"%string, None)].

Definition demo_shared_nested : wmap ModelParametersPtr :=
  [("a"%string,
    Some (mkModelParameters [("b"%string, 3%N)] [("x"%string, demo_leaf)]));
   ("c"%string, Some demo_leaf)].

Definition demo_built : ModelParameters :=
  mkModelParameters [("W"%string, 1%N); ("b"%string, 3%N)]
    [("f"%string, demo_empty); ("g"%string, demo_leaf)].

Definition demo_succ (p : ModelParametersPtr) : UnaryModel :=
  pure_unary (CNTK := demo_library) N.succ p.

Definition demo_double (p : ModelParametersPtr) : UnaryModel :=
  pure_unary (CNTK := demo_library) (N.mul 2) p.

Definition demo_add : BinaryModel :=
  pure_binary (CNTK := demo_library) N.add None.

(** A binary model whose body itself maps [demo_add] over two one-element
    sequences, as a model built from the combinators of this header may. *)
Definition demo_reentrant (order : AssignmentOrder) : BinaryModel :=
  mkTModel
    (fun a b w =>
       match Map_binary_body order demo_add 2 [a] [b] ([], w) with
       | Returns _ (v :: _, w') => Returns v w'
       | Returns _ ([], w') =>
           Throws (UndefinedBehavior "vector subscript out of range") w'
       | Throws e (_, w') => Throws e w'
       | OutOfFuel => OutOfFuel
       end)
    None.

(** * More of the header

    The parts of [Models.h] around those above: the numbered nesting of
    [TModel], [Batch::map] and the broadcasting model that calls it, and
    [Map] over a sequence model. *)

(** [m[k] = v] on a [std::map]: the binding of [k] is made, or its value
    replaced. *)
Fixpoint wmap_assign {V : Type} (k : wstring) (v : V) (m : wmap V) : wmap V :=
  match m with
  | [] => [(k, v)]
  | (k', v') :: m' =>
      match String.compare k k' with
      | Lt => (k, v) :: (k', v') :: m'
      | Eq => (k', v) :: m'
      | Gt => (k', v') :: wmap_assign k v m'
      end
  end.

(** [L"[" + std::to_wstring(n) + L"]"]: the decimal numeral of [n] in
    brackets. *)
Definition numbered_name (n : nat) : wstring :=
  "[" +:+ pretty (N.of_nat n) +:+ "]".

Section More_Dynamite.
Context `{CNTK : CNTKLibrary}.

(** [NameNumberedParameters(nested)]: each handle is bound to the name made
    of the size the map has when its turn comes. *)
Definition NameNumberedParameters (nested : list ModelParametersPtr)
    : wmap ModelParametersPtr :=
  fold_left (fun res p => wmap_assign (numbered_name (length res)) p res)
            nested [].

(** [TModel(nested, f)], the constructor for nested items that are indexed. *)
Definition TModel_numbered {Base : Type} (nested : list ModelParametersPtr)
    (f : Base) : Result (TModel Base) :=
  TModel_new [] (NameNumberedParameters nested) f.

(** The callable of a model as the state of its own vector [res] sees it:
    the run on [res] empty, and what the vector holds at the end. *)
Definition with_local_res {A : Type} (m : M SeqState A)
    : M (World LibraryState) (list CNTK_Variable) :=
  fun w =>
    match m ([], w) with
    | Returns _ s => Returns s.1 s.2
    | Throws e s => Throws e s.2
    | OutOfFuel => OutOfFuel
    end.

(** [Batch::map(f, batch)]: the vector [res] is the function's own. *)
Definition Batch_map (f : UnaryModel) (batch : list CNTK_Variable)
    : M (World LibraryState) (list CNTK_Variable) :=
  with_local_res
    (for_each batch (fun a =>
       let* v := in_process (call f a) in
       on_res (fun res => res ++ [v]))).

(** [UnaryBroadcastingModel::operator()(res, x)]: [res] is assigned what
    [Batch::map] returns for the model itself and [x]. *)
Definition broadcast (f : UnaryModel) (x : list CNTK_Variable)
    : M SeqState unit :=
  let* out := in_process (Batch_map f x) in
  on_res (fun _ => out).


(** The state of the callable of [Map(BinarySequenceModel)]: its own vector
    of vectors [res], and the process. *)
Definition BatchState : Type :=
  list (list CNTK_Variable) * World LibraryState.

(** [f(res[i], xBatch[i], yBatch[i])]: the model works on [res[i]] in
    place. *)
Definition Map_batch_step (f : BinarySequenceModel) (fuel : nat)
    (xBatch yBatch : list (list CNTK_Variable)) (i : nat) : M BatchState unit :=
  fun s =>
    match s.1 !! i, xBatch !! i, yBatch !! i with
    | Some resi, Some xi, Some yi =>
        match call f fuel xi yi (resi, s.2) with
        | Returns _ s' => Returns tt (<[i := s'.1]> s.1, s'.2)
        | Throws e s' => Throws e (<[i := s'.1]> s.1, s'.2)
        | OutOfFuel => OutOfFuel
        end
    | _, _, _ => Throws (UndefinedBehavior "vector subscript out of range") s
    end.

(** The callable of [Batch::Map(BinarySequenceModel f)]: the vector [res] is
    its own, sized before the lengths are compared, and the loop counts with
    a variable of its own. *)
Definition Map_batch (f : BinarySequenceModel) (fuel : nat)
    (xBatch yBatch : list (list CNTK_Variable))
    : M (World LibraryState) (list (list CNTK_Variable)) :=
  fun w =>
    let res := replicate (length xBatch) [] in
    if decide (length yBatch = length xBatch) then
      match for_each (seq 0 (length xBatch))
                     (Map_batch_step f fuel xBatch yBatch) (res, w) with
      | Returns _ s => Returns s.1 s.2
      | Throws e s => Throws e s.2
      | OutOfFuel => OutOfFuel
      end
    else Throws (AssertionFailed "yBatch.size() == xBatch.size()") w.

(** The parameters of a registry in the order [LogParameters] goes through
    them: those of each nested registry first, then its own. *)
Fixpoint logged (r : ModelParameters) : list CNTK_Variable :=
  match r with
  | mkModelParameters ps ns => concat (map (fun kv => logged kv.2) ns) ++ ps.*2
  end.

(** The line that [LogParameters] prints for a parameter of the registry
    itself: its name after the prefix, and its value. *)
Definition own_line (prefix : wstring) (kv : wstring * CNTK_Variable) : LogLine :=
  mkLogLine (prefix +:+ kv.1) (AsString kv.2).

(** The calls of a binary model on the pairs of two sequences, one after
    the other, each made with the map index showing the place of the pair,
    and the values they return in the same order. *)
Fixpoint each_applied_indexed (f : BinaryModel) (k : nat)
    (x y : list CNTK_Variable)
    : M (World LibraryState) (list CNTK_Variable) :=
  match x, y with
  | xk :: x', yk :: y' =>
      modify (set_CurrentMapIndex (N.of_nat k)) ;;
      let* v := call f xk yk in
      let* vs := each_applied_indexed f (S k) x' y' in
      ret (v :: vs)
  | _, _ => ret []
  end.

(** The calls of a sequence model on the pairs of rows of two batches, one
    after the other, each on an output that starts empty, and the outputs
    in the same order. *)
Fixpoint rows_applied (f : BinarySequenceModel) (fuel : nat)
    (xBatch yBatch : list (list CNTK_Variable))
    : M (World LibraryState) (list (list CNTK_Variable)) :=
  match xBatch, yBatch with
  | xi :: xBatch', yi :: yBatch' =>
      fun w =>
        match call f fuel xi yi ([], w) with
        | Returns _ s =>
            match rows_applied f fuel xBatch' yBatch' s.2 with
            | Returns rs w' => Returns (s.1 :: rs) w'
            | Throws e w' => Throws e w'
            | OutOfFuel => OutOfFuel
            end
        | Throws e s => Throws e s.2
        | OutOfFuel => OutOfFuel
        end
  | _, _ => ret []
  end.

End More_Dynamite.

(** A binary model that counts an API call, as the operators of the header
    do, and throws when its second argument is [0]. *)
Definition demo_counting : BinaryModel :=
  mkTModel (CNTK := demo_library)
    (fun a b =>
       if (b =? 0)%N then throw (LogicError "division by zero")
       else let* c := CountAPICalls 1 in ret (a / b + c)%N)
    None.


(** * Properties *)

(** ** The order of keys *)

Lemma compare_refl (a : string) : String.compare a a = Eq.
Proof.
  pose proof (String.compare_antisym a a) as H.
  destruct (String.compare a a); simpl in H; congruence.
Qed.

Lemma compare_Eq_iff (a b : string) : String.compare a b = Eq ↔ a = b.
Proof.
  split; [apply String.compare_eq_iff | intros ->; apply compare_refl].
Qed.

Lemma compare_Gt_Lt (a b : string) :
  String.compare a b = Gt ↔ String.compare b a = Lt.
Proof.
  rewrite (String.compare_antisym a b).
  destruct (String.compare b a); simpl; split; congruence.
Qed.

Lemma ascii_compare_Lt_trans (a b c : Ascii.ascii) :
  Ascii.compare a b = Lt → Ascii.compare b c = Lt → Ascii.compare a c = Lt.
Proof.
  unfold Ascii.compare. rewrite !N.compare_lt_iff. lia.
Qed.

Lemma compare_Lt_trans (a b c : string) :
  String.compare a b = Lt → String.compare b c = Lt → String.compare a c = Lt.
Proof.
  revert b c. induction a as [|x a IH]; intros [|y b] [|z c]; simpl; try done.
  destruct (Ascii.compare x y) eqn:Hxy; try done.
  - apply Ascii.compare_eq_iff in Hxy as ->.
    destruct (Ascii.compare y z); try done. apply IH.
  - destruct (Ascii.compare y z) eqn:Hyz; try done.
    + apply Ascii.compare_eq_iff in Hyz as <-. by rewrite Hxy.
    + by rewrite (ascii_compare_Lt_trans _ _ _ Hxy Hyz).
Qed.

Lemma compare_Lt_ne (a b : string) : String.compare a b = Lt → a ≠ b.
Proof. intros H ->. by rewrite compare_refl in H. Qed.

(** ** Ordered maps *)

Section wmap_facts.
Context {V : Type}.
Implicit Types (m : wmap V) (k : string) (v : V).

Lemma wmap_sorted_above k v m : wmap_sorted ((k, v) :: m) → above k m.
Proof.
  revert k v. induction m as [|[k' v'] m IH]; intros k v Hs; [constructor|].
  inversion Hs as [| |? ? ? Hlt Hs']; subst. constructor; [exact Hlt|].
  eapply Forall_impl; [apply (IH _ _ Hs')|].
  intros kv Hkv. exact (compare_Lt_trans _ _ _ Hlt Hkv).
Qed.

Lemma wmap_sorted_tail kv m : wmap_sorted (kv :: m) → wmap_sorted m.
Proof. inversion 1; [constructor | done]. Qed.

Lemma wmap_find_above k m : above k m → wmap_find k m = None.
Proof.
  induction 1 as [|[k' v'] m Hlt _ IH]; simpl in *; [done|]. by rewrite Hlt.
Qed.

Lemma wmap_find_insert_ne k k' v m :
  k ≠ k' → wmap_find k (wmap_insert k' v m) = wmap_find k m.
Proof.
  intros Hne. induction m as [|[k1 v1] m IH]; simpl.
  - destruct (String.compare k k') eqn:E; [|done..].
    by apply compare_Eq_iff in E.
  - destruct (String.compare k' k1) eqn:E1; simpl; [done| |by rewrite IH].
    destruct (String.compare k k') eqn:E; [|done..].
    by apply compare_Eq_iff in E.
Qed.

Lemma wmap_find_insert_fresh k v m :
  wmap_find k m = None → wmap_find k (wmap_insert k v m) = Some v.
Proof.
  induction m as [|[k1 v1] m IH]; simpl.
  - by rewrite compare_refl.
  - destruct (String.compare k k1) eqn:E; [done| |]; intros Hm; simpl.
    + by rewrite compare_refl.
    + rewrite E. by apply IH.
Qed.

Lemma wmap_insert_present k v m :
  wmap_sorted m → is_Some (wmap_find k m) → wmap_insert k v m = m.
Proof.
  induction m as [|[k1 v1] m IH]; simpl; intros Hs [u Hu]; [done|].
  destruct (String.compare k k1) eqn:E; [done| |].
  - apply wmap_sorted_above in Hs.
    assert (above k m) as Ha.
    { eapply Forall_impl; [exact Hs|]. intros kv. by apply compare_Lt_trans. }
    by rewrite (wmap_find_above _ _ Ha) in Hu.
  - f_equal. apply IH; [by eapply wmap_sorted_tail | by exists u].
Qed.

Lemma wmap_find_insert k k' v m :
  wmap_sorted m →
  wmap_find k (wmap_insert k' v m) =
    match wmap_find k m with
    | Some u => Some u
    | None => if decide (k = k') then Some v else None
    end.
Proof.
  intros Hs. destruct (decide (k = k')) as [->|Hne].
  - destruct (wmap_find k' m) as [u|] eqn:E.
    + rewrite wmap_insert_present; [done..|by exists u].
    + by apply wmap_find_insert_fresh.
  - rewrite wmap_find_insert_ne by done. by destruct (wmap_find k m).
Qed.

Lemma wmap_insert_sorted k v m : wmap_sorted m → wmap_sorted (wmap_insert k v m).
Proof.
  induction m as [|[k1 v1] m IH]; simpl; intros Hs; [constructor|].
  destruct (String.compare k k1) eqn:E; [done|by constructor|].
  apply compare_Gt_Lt in E.
  specialize (IH (wmap_sorted_tail _ _ Hs)).
  destruct m as [|[k2 v2] m]; simpl in *; [by repeat constructor|].
  inversion Hs; subst.
  destruct (String.compare k k2) eqn:E2; by constructor.
Qed.

Lemma wmap_sorted_find k v m :
  wmap_sorted m → ((k, v) ∈ m ↔ wmap_find k m = Some v).
Proof.
  induction m as [|[k1 v1] m IH]; simpl; intros Hs.
  - split; [by intros ?%elem_of_nil | done].
  - specialize (IH (wmap_sorted_tail _ _ Hs)).
    apply wmap_sorted_above in Hs. rewrite elem_of_cons.
    destruct (String.compare k k1) eqn:E.
    + apply compare_Eq_iff in E as ->. split.
      * intros [[= ->]|Hin]; [done|].
        unfold above in Hs. rewrite Forall_forall in Hs.
        specialize (Hs _ Hin). simpl in Hs.
        by rewrite compare_refl in Hs.
      * intros [= ->]. by left.
    + rewrite <- IH. split; [|by right].
      intros [[= -> ->]|Hin]; [by rewrite compare_refl in E | done].
    + rewrite <- IH. split; [|by right].
      intros [[= -> ->]|Hin]; [by rewrite compare_refl in E | done].
Qed.

Lemma wmap_of_list_sorted (l : list (string * V)) : wmap_sorted (wmap_of_list l).
Proof.
  unfold wmap_of_list.
  assert (∀ m, wmap_sorted m →
    wmap_sorted (fold_left (fun m kv => wmap_insert kv.1 kv.2 m) l m)) as H.
  { induction l as [|kv l IH]; simpl; intros m Hm; [done|].
    apply IH. by apply wmap_insert_sorted. }
  apply H. constructor.
Qed.

End wmap_facts.

(** ** Building a registry *)

Section registry_facts.
Context `{CNTK : CNTKLibrary}.
Implicit Types (p : CNTK_Variable) (r : ModelParameters) (name : string).

Lemma insert_parameters_unnamed (m : wmap CNTK_Variable) ps :
  (∃ p, p ∈ ps ∧ Name p = EmptyString) →
  insert_parameters m ps = Raise (LogicError "parameters must be named").
Proof.
  revert m. induction ps as [|q ps IH]; intros m [p [Hin Hp]]; simpl.
  - by apply elem_of_nil in Hin.
  - destruct (decide (Name q = EmptyString)) as [|Hq]; [done|].
    apply IH. apply elem_of_cons in Hin as [->|Hin]; [done|]. by exists p.
Qed.

Lemma insert_parameters_named (m : wmap CNTK_Variable) ps :
  (∀ p, p ∈ ps → Name p ≠ EmptyString) → wmap_sorted m →
  ∃ m', insert_parameters m ps = Ok m' ∧ wmap_sorted m' ∧
    ∀ name, wmap_find name m' =
      match wmap_find name m with
      | Some u => Some u
      | None => first_named name ps
      end.
Proof.
  revert m. induction ps as [|q ps IH]; intros m Hn Hs; simpl.
  - exists m. split_and!; [done..|]. intros name. by destruct (wmap_find name m).
  - destruct (decide (Name q = EmptyString)) as [Hq|Hq].
    { exfalso. eapply Hn; [|exact Hq]. by left. }
    destruct (IH (wmap_insert (Name q) q m)) as (m' & Hm' & Hs' & Hfind).
    { intros p Hp. apply Hn. by right. }
    { by apply wmap_insert_sorted. }
    exists m'. split_and!; [done..|]. intros name.
    rewrite Hfind, wmap_find_insert by done.
    destruct (wmap_find name m); [done|].
    case_bool_decide; case_decide; congruence.
Qed.

Lemma first_named_unique name ps p :
  NoDup (Name <$> ps) → p ∈ ps → Name p = name → first_named name ps = Some p.
Proof.
  induction ps as [|q ps IH]; simpl; intros Hnd Hin Hname.
  - by apply elem_of_nil in Hin.
  - apply NoDup_cons in Hnd as [Hq Hnd]. case_bool_decide as Hqn.
    + apply elem_of_cons in Hin as [->|Hin]; [done|].
      exfalso. apply Hq. apply list_elem_of_fmap. exists p. split; [congruence|done].
    + apply elem_of_cons in Hin as [->|Hin]; [done|]. by apply IH.
Qed.

Lemma first_named_None name ps :
  first_named name ps = None ↔ name ∉ Name <$> ps.
Proof.
  induction ps as [|q ps IH]; simpl.
  - split; [intros _ Hin; by apply elem_of_nil in Hin | done].
  - rewrite not_elem_of_cons. case_bool_decide as Hq; split.
    + done.
    + intros [Hne _]. congruence.
    + intros Hf. split; [congruence | by apply IH].
    + intros [_ Hni]. by apply IH.
Qed.

Lemma first_named_Some name ps p :
  first_named name ps = Some p → p ∈ ps ∧ Name p = name.
Proof.
  induction ps as [|q ps IH]; simpl; [done|]. case_bool_decide.
  - intros [= ->]. split; [by left | done].
  - intros H'. destruct (IH H'). split; [by right | done].
Qed.

Lemma above_nonnull name (nested : wmap ModelParametersPtr) :
  above name nested → above name (nonnull nested).
Proof.
  unfold above. induction 1 as [|[k [r'|]] l Hk _ IH]; simpl.
  - constructor.
  - by constructor.
  - exact IH.
Qed.

Lemma wmap_find_nonnull name (nested : wmap ModelParametersPtr) :
  wmap_sorted nested →
  wmap_find name (nonnull nested) =
    match wmap_find name nested with
    | Some (Some r') => Some r'
    | _ => None
    end.
Proof.
  induction nested as [|[k o] l IH]; simpl; intros Hs; [done|].
  specialize (IH (wmap_sorted_tail _ _ Hs)). apply wmap_sorted_above in Hs.
  destruct o as [r'|]; simpl.
  - destruct (String.compare name k); done.
  - destruct (String.compare name k) eqn:E; [|done..].
    apply compare_Eq_iff in E as ->.
    apply wmap_find_above. by apply above_nonnull.
Qed.

Lemma insert_nested_fold (nested : wmap ModelParametersPtr)
    (m : wmap ModelParameters) :
  wmap_sorted m →
  wmap_sorted (fold_left insert_nested nested m) ∧
  ∀ name, wmap_find name (fold_left insert_nested nested m) =
    match wmap_find name m with
    | Some u => Some u
    | None => wmap_find name (nonnull nested)
    end.
Proof.
  revert m. induction nested as [|[k o] l IH]; simpl; intros m Hs.
  - split; [done|]. intros name. by destruct (wmap_find name m).
  - destruct o as [r'|]; unfold insert_nested at 2 4; simpl.
    + destruct (IH (wmap_insert k r' m)) as [Hs' Hfind].
      { by apply wmap_insert_sorted. }
      split; [done|]. intros name. rewrite Hfind, wmap_find_insert by done.
      destruct (wmap_find name m); [done|].
      case_decide as Hk.
      * subst. by rewrite compare_refl.
      * destruct (String.compare name k) eqn:E; [|done..].
        by apply compare_Eq_iff in E.
    + by apply IH.
Qed.

Lemma ModelParameters_new_Ok ps (nested : wmap ModelParametersPtr) r :
  ModelParameters_new ps nested = Ok r →
  insert_parameters [] ps = Ok (m_parameters r) ∧
  m_nestedParameters r = fold_left insert_nested nested [].
Proof.
  unfold ModelParameters_new.
  destruct (insert_parameters [] ps); [|done]. by intros [= <-].
Qed.

Lemma ModelParameters_new_empty (nested : wmap ModelParametersPtr) :
  ModelParameters_new [] nested =
    Ok (mkModelParameters [] (fold_left insert_nested nested [])).
Proof. done. Qed.

End registry_facts.

(** ** Collecting the parameters *)

Section collect_facts.
Context `{CNTK : CNTKLibrary}.
Implicit Types (p q : CNTK_Variable) (r : ModelParameters).
Implicit Types (l res : list CNTK_Variable) (vis : gset CNTK_Variable).

Lemma ModelParameters_nested_ind (P : ModelParameters → Prop) :
  (∀ ps ns, Forall (fun kv => P kv.2) ns → P (mkModelParameters ps ns)) →
  ∀ r, P r.
Proof.
  intros step. fix IH 1. intros [ps ns]. apply step.
  induction ns as [|[k r'] ns IHns]; constructor; [apply IH | exact IHns].
Qed.

Lemma unvisited_app vis l1 l2 :
  unvisited vis (l1 ++ l2) =
    unvisited vis l1 ++ unvisited (vis ∪ list_to_set l1) l2.
Proof.
  revert vis. induction l1 as [|p l1 IH]; intros vis; simpl.
  - f_equal. set_solver.
  - case_decide as Hp.
    + rewrite IH. do 2 f_equal. set_solver.
    + simpl. rewrite IH. do 3 f_equal. set_solver.
Qed.

Lemma unvisited_first_occurrences vis l :
  unvisited vis l = filter (fun q => q ∉ vis) (first_occurrences l).
Proof.
  revert vis. induction l as [|p l IH]; intros vis; simpl; [done|].
  case_decide as Hp.
  - rewrite filter_cons_False by (intros Hn; by apply Hn).
    rewrite IH, list_filter_filter. apply list_filter_iff.
    intros q. split; [|tauto]. intros Hq. split; [done|]. congruence.
  - rewrite filter_cons_True by done. f_equal.
    rewrite IH, list_filter_filter. apply list_filter_iff.
    intros q. set_solver.
Qed.

Lemma unvisited_empty l : unvisited ∅ l = first_occurrences l.
Proof.
  rewrite unvisited_first_occurrences.
  generalize (first_occurrences l) as l'. intros l'.
  induction l' as [|q l' IH]; [done|].
  rewrite filter_cons_True by set_solver. by f_equal.
Qed.

Lemma collect_one_fold (ps : wmap CNTK_Variable) res vis :
  fold_left (fun st kv => collect_one st kv.2) ps (res, vis) =
    (res ++ unvisited vis ps.*2, vis ∪ list_to_set ps.*2).
Proof.
  revert res vis. induction ps as [|[k p] ps IH]; intros res vis; simpl.
  - rewrite app_nil_r. f_equal. set_solver.
  - unfold collect_one at 2. simpl. case_decide as Hp.
    + rewrite IH. f_equal. set_solver.
    + rewrite IH, <- app_assoc. simpl. f_equal. set_solver.
Qed.

Lemma CollectParameters_listed r res vis :
  CollectParameters r (res, vis) =
    (res ++ unvisited vis (listed r), vis ∪ list_to_set (listed r)).
Proof.
  revert res vis. induction r as [ps ns IH] using ModelParameters_nested_ind.
  intros res vis. simpl. rewrite collect_one_fold, unvisited_app.
  generalize (unvisited vis ps.*2) as done_here. intros done_here.
  rewrite list_to_set_app_L, !(assoc_L _ res), !(assoc_L _ vis).
  generalize (res ++ done_here) as acc, (vis ∪ list_to_set ps.*2) as seen.
  induction IH as [|[k r'] ns Hr' _ IHns]; intros acc seen; simpl.
  - rewrite app_nil_r. f_equal. set_solver.
  - rewrite Hr', IHns, unvisited_app, list_to_set_app_L, <- app_assoc.
    f_equal. set_solver.
Qed.

Lemma first_occurrences_elem_of l p : p ∈ first_occurrences l ↔ p ∈ l.
Proof.
  induction l as [|q l IH]; simpl; [done|].
  rewrite !elem_of_cons, list_elem_of_filter, IH.
  destruct (decide (p = q)); naive_solver.
Qed.

Lemma first_occurrences_NoDup l : NoDup (first_occurrences l).
Proof.
  induction l as [|q l IH]; simpl; constructor.
  - rewrite list_elem_of_filter. naive_solver.
  - by apply NoDup_filter.
Qed.

Lemma first_occurrences_sublist l : first_occurrences l `sublist_of` l.
Proof.
  induction l as [|q l IH]; simpl; [done|].
  apply sublist_skip. etrans; [apply sublist_filter | exact IH].
Qed.

Lemma filter_absent l q : q ∉ l → filter (fun p => p ≠ q) l = l.
Proof.
  induction l as [|p l IH]; [done|]. intros [Hne Hq]%not_elem_of_cons.
  rewrite filter_cons_True by congruence. f_equal. by apply IH.
Qed.

Lemma first_occurrences_NoDup_id l : NoDup l → first_occurrences l = l.
Proof.
  induction 1 as [|q l Hq _ IH]; simpl; [done|].
  by rewrite IH, filter_absent.
Qed.

Lemma reaches_listed r p : reaches r p ↔ p ∈ listed r.
Proof.
  split.
  - induction 1 as [[ps ns] name p Hin|[ps ns] name r' p Hin _ IH]; simpl in *.
    + apply elem_of_app. left. apply list_elem_of_fmap. by exists (name, p).
    + apply elem_of_app. right. apply list_elem_of_In, in_concat.
      exists (listed r'). split; [|by apply list_elem_of_In].
      apply in_map_iff. exists (name, r').
      split; [done | by apply list_elem_of_In].
  - revert p. induction r as [ps ns IH] using ModelParameters_nested_ind.
    intros p. simpl. rewrite elem_of_app. intros [Hp|Hp].
    + apply list_elem_of_fmap in Hp as ([name q] & -> & Hin).
      by eapply reaches_here.
    + apply list_elem_of_In, in_concat in Hp as (l & Hl & Hp).
      apply in_map_iff in Hl as ([name r'] & <- & Hin).
      apply list_elem_of_In in Hin, Hp.
      rewrite Forall_forall in IH.
      eapply reaches_nested; [exact Hin | by apply (IH _ Hin)].
Qed.

End collect_facts.

(** ** The registry: construction, lookup, collection *)

Section registry_properties.
Context `{CNTK : CNTKLibrary}.
Implicit Types (p q : CNTK_Variable) (r : ModelParameters) (name : string).

Lemma ModelParameters_new_named ps (nested : wmap ModelParametersPtr) r :
  ModelParameters_new ps nested = Ok r → ∀ p, p ∈ ps → Name p ≠ EmptyString.
Proof.
  intros Hnew p Hp Hname. unfold ModelParameters_new in Hnew.
  rewrite (insert_parameters_unnamed [] ps) in Hnew; [done|by exists p].
Qed.

Lemma ModelParameters_new_find ps (nested : wmap ModelParametersPtr) r :
  ModelParameters_new ps nested = Ok r →
  wmap_sorted (m_parameters r) ∧ wmap_sorted (m_nestedParameters r) ∧
  (∀ name, wmap_find name (m_parameters r) = first_named name ps) ∧
  (∀ name, wmap_find name (m_nestedParameters r) =
             wmap_find name (nonnull nested)).
Proof.
  intros Hnew. pose proof (ModelParameters_new_named _ _ _ Hnew) as Hnamed.
  apply ModelParameters_new_Ok in Hnew as [Hps Hns].
  destruct (insert_parameters_named [] ps Hnamed) as (m' & Hm' & Hs & Hfind).
  { constructor. }
  rewrite Hps in Hm'. injection Hm' as <-.
  destruct (insert_nested_fold nested []) as [Hs' Hfind']; [constructor|].
  rewrite Hns. split_and!; done.
Qed.

(** C5, as the code has it. Building a registry is a logic error exactly
    when a parameter of the list has the empty name. When every name is
    non-empty the registry is built, a name leads to the first parameter of
    the list that bears it (two parameters under one name are no error: the
    later one is left out), and when the names are pairwise distinct every
    parameter of the list is found under its name. *)
Theorem ModelParameters_new_naming ps (nested : wmap ModelParametersPtr) :
  ((∃ p, p ∈ ps ∧ Name p = EmptyString) →
     ModelParameters_new ps nested = Raise (LogicError "parameters must be named"))
  ∧ ((∀ p, p ∈ ps → Name p ≠ EmptyString) →
     ∃ r, ModelParameters_new ps nested = Ok r
       ∧ (∀ name, wmap_find name (m_parameters r) = first_named name ps)
       ∧ (NoDup (Name <$> ps) →
          ∀ p, p ∈ ps → ModelParameters_index r (Name p) = Ok p)).
Proof.
  split.
  - intros Hex. unfold ModelParameters_new.
    by rewrite insert_parameters_unnamed.
  - intros Hnamed.
    destruct (insert_parameters_named [] ps Hnamed) as (m' & Hm' & _ & _).
    { constructor. }
    set (r := mkModelParameters m' (fold_left insert_nested nested [])).
    assert (ModelParameters_new ps nested = Ok r) as Hnew.
    { unfold ModelParameters_new. by rewrite Hm'. }
    exists r. destruct (ModelParameters_new_find _ _ _ Hnew) as (_ & _ & Hf & _).
    split_and!; [done..|]. intros Hnd p Hp.
    unfold ModelParameters_index.
    by rewrite Hf, (first_named_unique (Name p) ps p).
Qed.

Lemma ModelParameters_new_nested_find ps (nested : wmap ModelParametersPtr) r :
  ModelParameters_new ps nested = Ok r →
  wmap_sorted nested →
  ∀ name,
    wmap_find name (m_nestedParameters r) =
      match wmap_find name nested with
      | Some (Some r') => Some r'
      | _ => None
      end.
Proof.
  intros Hnew Hs name.
  destruct (ModelParameters_new_find _ _ _ Hnew) as (_ & _ & _ & Hf).
  by rewrite Hf, wmap_find_nonnull.
Qed.

(** C6, as the code has it. Of the nested entries handed to the
    constructor, those whose handle is null are left out and every other
    one is kept under its name, a registry without parameters and without
    nested registries included: a name leads to a nested registry of the
    result exactly when the map handed in binds it to a handle that is not
    null, and then to the registry behind that handle. *)
Theorem ModelParameters_new_nested ps (nested : wmap ModelParametersPtr) r :
  ModelParameters_new ps nested = Ok r →
  wmap_sorted nested →
  ∀ name,
    wmap_find name (m_nestedParameters r) =
      match wmap_find name nested with
      | Some (Some r') => Some r'
      | _ => None
      end
    ∧ (∀ r', wmap_find name nested = Some (Some r') ↔ Nested r name = Ok r')
    ∧ (wmap_find name nested = Some None →
       Nested r name = Raise (LogicError ("no such captured model: " +:+ name))).
Proof.
  intros Hnew Hs name.
  pose proof (ModelParameters_new_nested_find _ _ _ Hnew Hs name) as Hn.
  unfold Nested. rewrite Hn. split_and!.
  - done.
  - intros r'. destruct (wmap_find name nested) as [[r''|]|]; naive_solver.
  - by intros ->.
Qed.

(** C7. In a registry built from [ps] and [nested], [operator[]] on a name
    that no parameter of [ps] bears and [Nested] on a name that [nested]
    does not bind to a registry end in a logic error; on a name that is
    there they give back the very parameter, respectively registry, that
    the constructor inserted under it. *)
Theorem lookup_by_name ps (nested : wmap ModelParametersPtr) r :
  ModelParameters_new ps nested = Ok r →
  wmap_sorted nested →
  ∀ name,
    ModelParameters_index r name =
      match first_named name ps with
      | Some p => Ok p
      | None => Raise (LogicError ("no such parameter: " +:+ name))
      end
    ∧ Nested r name =
      match wmap_find name nested with
      | Some (Some r') => Ok r'
      | _ => Raise (LogicError ("no such captured model: " +:+ name))
      end
    ∧ (name ∉ Name <$> ps →
       ModelParameters_index r name =
         Raise (LogicError ("no such parameter: " +:+ name)))
    ∧ (∀ p, wmap_find name (m_parameters r) = Some p →
       p ∈ ps ∧ Name p = name ∧ ModelParameters_index r name = Ok p)
    ∧ (∀ Base (m : TModel Base), get m = Some r →
       TModel_index m name = ModelParameters_index r name
       ∧ TModel_Nested m name = Nested r name).
Proof.
  intros Hnew Hs name.
  destruct (ModelParameters_new_find _ _ _ Hnew) as (_ & _ & Hf & _).
  pose proof (ModelParameters_new_nested_find _ _ _ Hnew Hs name) as Hn.
  unfold ModelParameters_index, Nested. rewrite Hf, Hn. split_and!.
  - by destruct (first_named name ps).
  - by destruct (wmap_find name nested) as [[r'|]|].
  - intros Hni. apply first_named_None in Hni. by rewrite Hni.
  - intros p Hp. rewrite Hp. apply first_named_Some in Hp as [? ?]. done.
  - intros Base m Hm. unfold TModel_index, TModel_Nested.
    rewrite Hm. simpl. unfold ModelParameters_index, Nested.
    by rewrite Hf, Hn.
Qed.

Lemma reaches_new ps (nested : wmap ModelParametersPtr) r :
  ModelParameters_new ps nested = Ok r →
  NoDup (Name <$> ps) → wmap_sorted nested →
  ∀ p, reaches r p ↔
    p ∈ ps ∨ ∃ name r', wmap_find name nested = Some (Some r') ∧ reaches r' p.
Proof.
  intros Hnew Hnd Hs p.
  destruct (ModelParameters_new_find _ _ _ Hnew) as (Hsp & Hsn & Hf & _).
  pose proof (ModelParameters_new_nested_find _ _ _ Hnew Hs) as Hn.
  split.
  - inversion 1 as [? name ? Hin|? name r' ? Hin Hr']; subst.
    + left. apply wmap_sorted_find in Hin; [|done].
      rewrite Hf in Hin. by apply first_named_Some in Hin as [? _].
    + right. exists name, r'. split; [|done].
      apply wmap_sorted_find in Hin; [|done]. rewrite Hn in Hin.
      by destruct (wmap_find name nested) as [[r''|]|]; simplify_eq.
  - intros [Hp|(name & r' & Hfind & Hr')].
    + apply (reaches_here r (Name p)). apply wmap_sorted_find; [done|].
      rewrite Hf. by apply first_named_unique.
    + apply (reaches_nested r name r'); [|done].
      apply wmap_sorted_find; [done|]. by rewrite Hn, Hfind.
Qed.

(** C1. Collecting from a registry with an empty vector and an empty set
    gives the parameters in the order "own parameters in map order, then
    each nested registry in nested-map order, recursively", each at the place
    of its first occurrence and no parameter twice, however often a
    parameter or a nested registry is shared; the parameters in the result
    are exactly those the registry reaches. In a registry that the
    constructor built both maps are in ascending order of the names, and
    when the names of the list are distinct the parameters collected are
    those of the list and those reached by the nested registries. *)
Theorem Parameters_collects_each_once r :
  let out := (CollectParameters r ([], ∅)).1 in
  out = first_occurrences (listed r)
  ∧ NoDup out
  ∧ (∀ p, p ∈ out ↔ reaches r p)
  ∧ out `sublist_of` listed r
  ∧ (∀ Base (m : TModel Base), get m = Some r → Parameters m = Ok out)
  ∧ (∀ ps (nested : wmap ModelParametersPtr),
       ModelParameters_new ps nested = Ok r →
       wmap_sorted (m_parameters r) ∧ wmap_sorted (m_nestedParameters r))
  ∧ (∀ ps (nested : wmap ModelParametersPtr),
       ModelParameters_new ps nested = Ok r →
       NoDup (Name <$> ps) → wmap_sorted nested →
       ∀ p, p ∈ out ↔
         p ∈ ps ∨ ∃ name r',
           wmap_find name nested = Some (Some r') ∧ reaches r' p).
Proof.
  simpl. rewrite CollectParameters_listed. simpl. rewrite unvisited_empty.
  assert (∀ p, p ∈ first_occurrences (listed r) ↔ reaches r p) as Hreach.
  { intros p. by rewrite first_occurrences_elem_of, reaches_listed. }
  split_and!.
  - done.
  - apply first_occurrences_NoDup.
  - exact Hreach.
  - apply first_occurrences_sublist.
  - intros Base m Hm. unfold Parameters. rewrite Hm. simpl.
    by rewrite CollectParameters_listed, unvisited_empty.
  - intros ps nested Hnew.
    destruct (ModelParameters_new_find _ _ _ Hnew) as (Hsp & Hsn & _). done.
  - intros ps nested Hnew Hnd Hs p. rewrite Hreach. by apply reaches_new.
Qed.

End registry_properties.

(** ** The loops of [Batch] *)

Section batch_facts.
Context `{CNTK : CNTKLibrary}.
Implicit Types (x y res : list CNTK_Variable) (w : World LibraryState).

Lemma set_CurrentMapIndex_same w :
  set_CurrentMapIndex (CurrentMapIndex w) w = w.
Proof. by destruct w. Qed.

Lemma set_CurrentMapIndex_twice i j w :
  set_CurrentMapIndex i (set_CurrentMapIndex j w) = set_CurrentMapIndex i w.
Proof. done. Qed.

Lemma length_resize n res : length (resize n res) = n.
Proof.
  unfold resize. rewrite length_app, length_take, length_replicate. lia.
Qed.

Lemma size_t_succ_of_nat k :
  (N.of_nat k < SIZE_MAX)%N → size_t_succ (N.of_nat k) = N.of_nat (S k).
Proof.
  unfold size_t_succ, SIZE_MAX.
  change (2 ^ 64)%N with 18446744073709551616%N. intros Hk.
  rewrite N.mod_small; lia.
Qed.

Lemma subscript_middle {S : Type} (xa xb : list CNTK_Variable) a (s : S) :
  subscript (xa ++ a :: xb) (N.of_nat (length xa)) s = Returns a s.
Proof.
  unfold subscript.
  assert ((N.of_nat (length xa) <? N.of_nat (length (xa ++ a :: xb)))%N = true)
    as ->.
  { apply N.ltb_lt. rewrite length_app. simpl. lia. }
  by rewrite Nat2N.id, list_lookup_middle.
Qed.

Lemma assign_res_in_range k a res w :
  k < length res →
  assign_res (N.of_nat k) a (res, w) = Returns tt (<[k := a]> res, w).
Proof.
  intros Hk. unfold assign_res. simpl.
  assert ((N.of_nat k <? N.of_nat (length res))%N = true) as ->.
  { apply N.ltb_lt. lia. }
  by rewrite Nat2N.id.
Qed.

Lemma bind_Returns {S A B : Type} (m : M S A) (k : A → M S B) s a s' :
  m s = Returns a s' → bind m k s = k a s'.
Proof. unfold bind. by intros ->. Qed.

Lemma bind_Throws {S A B : Type} (m : M S A) (k : A → M S B) s e s' :
  m s = Throws e s' → bind m k s = Throws e s'.
Proof. unfold bind. by intros ->. Qed.

Lemma bind_OutOfFuel {S A B : Type} (m : M S A) (k : A → M S B) s :
  m s = OutOfFuel → bind m k s = OutOfFuel.
Proof. unfold bind. by intros ->. Qed.

Ltac run_with lem := erewrite bind_Returns by (apply lem); cbv beta.

Lemma Map_binary_loop_indexed order (f : BinaryModel) :
  keeps_index f →
  ∀ xb yb xa ya fuel res w i,
    length xa = length ya → length xb = length yb →
    length res = length (xa ++ xb) →
    (N.of_nat (length (xa ++ xb)) ≤ SIZE_MAX)%N →
    length xb < fuel →
    CurrentMapIndex w = N.of_nat (length xa) →
    Map_binary_loop order fuel f (xa ++ xb) (ya ++ yb) (res, w)
    = leaving_index (N.of_nat (length (xa ++ xb)))
        (Map_binary_indexed f (length xa) xb yb (res, set_CurrentMapIndex i w)).
Proof.
  intros Hf. induction xb as [|xk xb IH];
    intros [|yk yb] xa ya [|fuel] res w i Hab Hlen Hres Hmax Hfuel Hidx;
    simplify_eq/=; try lia.
  - erewrite bind_Returns by reflexivity. simpl.
    rewrite Hidx, app_nil_r, N.ltb_irrefl. unfold ret. simpl.
    by rewrite set_CurrentMapIndex_twice, <- Hidx, set_CurrentMapIndex_same.
  - rewrite length_app in Hres, Hmax. simpl in Hres, Hmax.
    erewrite bind_Returns by reflexivity. simpl. rewrite Hidx.
    assert ((N.of_nat (length xa) <? N.of_nat (length (xa ++ xk :: xb)))%N = true)
      as ->.
    { apply N.ltb_lt. rewrite length_app. simpl. lia. }
    run_with @subscript_middle.
    rewrite Hab. run_with @subscript_middle. rewrite <- Hab.
    erewrite (bind_Returns (set_index _)) by reflexivity.
    simpl. rewrite set_CurrentMapIndex_twice.
    replace (set_CurrentMapIndex (N.of_nat (length xa)) w) with w
      by (by rewrite <- Hidx, set_CurrentMapIndex_same).
    destruct (call f xk yk w) as [v w'|e w'|] eqn:Hcall.
    + pose proof (Hf _ _ _ _ _ Hcall) as Hkeep. rewrite Hidx in Hkeep.
      assert (in_process (call f xk yk) (res, w) = Returns v (res, w')) as Hin.
      { unfold in_process. simpl. by rewrite Hcall. }
      rewrite !(bind_Returns _ _ _ _ _ Hin).
      erewrite (bind_Returns _ _ _ (N.of_nat (length xa)))
        by (destruct order; [unfold get_index, gets; simpl; rewrite Hkeep|];
            reflexivity).
      erewrite !(bind_Returns (assign_res _ _))
        by (apply assign_res_in_range; lia).
      erewrite bind_Returns by reflexivity. simpl. rewrite Hkeep.
      erewrite bind_Returns by reflexivity. simpl.
      rewrite size_t_succ_of_nat by lia.
      specialize (IH yb (xa ++ [xk]) (ya ++ [yk]) fuel (<[length xa := v]> res)
                    (set_CurrentMapIndex (N.of_nat (S (length xa))) w')
                    (N.of_nat (length xa))).
      rewrite <- !app_assoc in IH. simpl in IH.
      rewrite length_app in IH. simpl in IH.
      replace (length xa + 1) with (S (length xa)) in IH by lia.
      rewrite set_CurrentMapIndex_twice, <- Hkeep, set_CurrentMapIndex_same in IH.
      rewrite length_app in IH. simpl in IH.
      apply IH; rewrite ?length_insert, ?length_app; simpl; lia.
    + assert (in_process (call f xk yk) (res, w) = Throws e (res, w')) as Hin.
      { unfold in_process. simpl. by rewrite Hcall. }
      by rewrite !(bind_Throws _ _ _ _ _ Hin).
    + assert (in_process (call f xk yk) (res, w) = OutOfFuel) as Hin.
      { unfold in_process. simpl. by rewrite Hcall. }
      by rewrite !(bind_OutOfFuel _ _ _ Hin).
Qed.

Lemma Map_binary_loop_from_start order (f : BinaryModel) x y fuel res w i :
  keeps_index f →
  length x = length y → length res = length x →
  (N.of_nat (length x) ≤ SIZE_MAX)%N → length x < fuel →
  CurrentMapIndex w = 0%N →
  Map_binary_loop order fuel f x y (res, w)
  = leaving_index (N.of_nat (length x))
      (Map_binary_indexed f 0 x y (res, set_CurrentMapIndex i w)).
Proof.
  intros Hf Hlen Hres Hmax Hfuel Hidx.
  exact (Map_binary_loop_indexed order f Hf x y [] [] fuel res w i
           eq_refl Hlen Hres Hmax Hfuel Hidx).
Qed.

Lemma keeps_index_pure (g : CNTK_Variable → CNTK_Variable → CNTK_Variable) p :
  keeps_index (pure_binary g p).
Proof. intros a b w v w'. simpl. unfold ret. by intros [= _ <-]. Qed.

Lemma Map_binary_indexed_pure
    (g : CNTK_Variable → CNTK_Variable → CNTK_Variable) p n :
  ∀ xs ys k res w,
    length xs = length ys → k + length xs ≤ length res →
    leaving_index n (Map_binary_indexed (pure_binary g p) k xs ys (res, w))
    = Returns tt (take k res ++ zip_with g xs ys ++ drop (k + length xs) res,
                  set_CurrentMapIndex n w).
Proof.
  induction xs as [|xk xs IH]; intros [|yk ys] k res w Hlen Hk;
    simplify_eq/=.
  - by rewrite Nat.add_0_r, take_drop.
  - erewrite bind_Returns by reflexivity. simpl.
    erewrite bind_Returns by reflexivity. simpl.
    erewrite bind_Returns by (apply assign_res_in_range; lia). simpl.
    rewrite IH by (rewrite ?length_insert; lia).
    rewrite set_CurrentMapIndex_twice. do 2 f_equal.
    rewrite (take_S_r _ _ (g xk yk)) by (apply list_lookup_insert_eq; lia).
    rewrite take_insert_ge by lia. rewrite drop_insert_lt by lia.
    replace (k + S (length xs)) with (S k + length xs) by lia.
    by rewrite <- app_assoc.
Qed.

Lemma Map_binary_body_pure order
    (g : CNTK_Variable → CNTK_Variable → CNTK_Variable) p fuel x y res w :
  length y = length x → (N.of_nat (length x) ≤ SIZE_MAX)%N → length x < fuel →
  Map_binary_body order (pure_binary g p) fuel x y (res, w)
  = Returns tt (zip_with g x y, set_CurrentMapIndex SIZE_MAX w).
Proof.
  intros Hlen Hmax Hfuel. unfold Map_binary_body.
  rewrite decide_True by done.
  erewrite bind_Returns by reflexivity. simpl.
  erewrite bind_Returns by reflexivity. simpl.
  erewrite bind_Returns by reflexivity. simpl.
  unfold bind at 1.
  rewrite (Map_binary_loop_from_start _ _ _ _ _ _ _ 0%N)
    by (rewrite ?length_resize; done || apply keeps_index_pure).
  rewrite Map_binary_indexed_pure by (rewrite ?length_resize; lia).
  simpl. rewrite drop_ge by (rewrite length_resize; lia).
  by rewrite app_nil_r.
Qed.

Lemma Map_binary_body_mismatch order (f : BinaryModel) fuel x y res w :
  length y ≠ length x →
  Map_binary_body order f fuel x y (res, w)
  = Throws (AssertionFailed "y.size() == x.size()") (res, w).
Proof. intros Hne. unfold Map_binary_body. by rewrite decide_False. Qed.

Lemma Map_binary_body_resets order (f : BinaryModel) fuel x y s u s' :
  Map_binary_body order f fuel x y s = Returns u s' →
  CurrentMapIndex s'.2 = SIZE_MAX.
Proof.
  unfold Map_binary_body. case_decide; [|done].
  erewrite bind_Returns by reflexivity.
  erewrite bind_Returns by reflexivity.
  erewrite bind_Returns by reflexivity.
  unfold bind. destruct (Map_binary_loop _ _ _ _ _ _) as [a s1| |]; [|done..].
  by intros [= _ <-].
Qed.

Lemma Map_binary_body_as_specified order (f : BinaryModel) fuel x y res w :
  keeps_index f →
  length y = length x → (N.of_nat (length x) ≤ SIZE_MAX)%N → length x < fuel →
  Map_binary_body order f fuel x y (res, w)
  = Map_binary_as_specified f x y (res, w).
Proof.
  intros Hf Hlen Hmax Hfuel. unfold Map_binary_body, Map_binary_as_specified.
  rewrite decide_True by done.
  erewrite !(bind_Returns (ret tt)) by reflexivity.
  erewrite !(bind_Returns (on_res _)) by reflexivity. simpl.
  erewrite bind_Returns by reflexivity. simpl.
  unfold bind at 1 2.
  rewrite (Map_binary_loop_from_start _ _ _ _ _ _ _ (CurrentMapIndex w))
    by (rewrite ?length_resize; done).
  rewrite set_CurrentMapIndex_twice, set_CurrentMapIndex_same.
  by destruct (Map_binary_indexed _ _ _ _ _) as [a [res' w']| |].
Qed.

(** *** The unary map *)




Lemma each_applied_length f batch w out w' :
  each_applied f batch w = Returns out w' → length out = length batch.
Proof.
  revert w out. induction batch as [|a batch IH]; intros w out; simpl.
  - unfold ret. by intros [= <- _].
  - unfold bind at 1. destruct (f a w) as [v w1| |]; [|done..].
    unfold bind at 1.
    destruct (each_applied f batch w1) as [vs w2| |] eqn:Hrest; [|done..].
    unfold ret. intros ?; simplify_eq. simpl. f_equal. by apply (IH w1 vs).
Qed.

(** *** The sum *)

Lemma allSummands_concat (batch : list (list CNTK_Variable)) acc :
  fold_left (fun acc batchItem =>
               fold_left (fun acc seqItem => acc ++ [seqItem]) batchItem acc)
            batch acc
  = acc ++ concat batch.
Proof.
  revert acc. induction batch as [|b batch IH]; intros acc; simpl.
  - by rewrite app_nil_r.
  - rewrite IH, app_assoc. f_equal.
    clear. revert acc. induction b as [|a b IHb]; intros acc; simpl.
    + by rewrite app_nil_r.
    + by rewrite IHb, <- app_assoc.
Qed.

End batch_facts.

(** ** The combinators *)

Section combinator_properties.
Context `{CNTK : CNTKLibrary}.
Implicit Types (x y res batch : list CNTK_Variable) (w : World LibraryState).

Lemma TModel_new_empty {Base : Type} (nested : wmap ModelParametersPtr)
    (f : Base) :
  TModel_new [] nested f =
    Ok (mkTModel f
          (Some (mkModelParameters [] (fold_left insert_nested nested [])))).
Proof. done. Qed.


(** C9, as the code has it. The index shows [SIZE_MAX] before any [Map]
    has run and after every run of [Map] over a binary model that returned.
    When the model leaves the index as it found it, the run on inputs of
    one length (that a [size_t] can hold) is the one of the specification:
    element [i] is computed by a call made while the index shows [i], and is
    stored at place [i]. *)
Theorem CurrentMapIndex_protocol order (f : BinaryModel) fuel x y res w :
  (∀ l : LibraryState, CurrentMapIndex (initial_World l) = SIZE_MAX)
  ∧ (∀ u s', Map_binary_body order f fuel x y (res, w) = Returns u s' →
       CurrentMapIndex s'.2 = SIZE_MAX)
  ∧ (keeps_index f →
     length y = length x → (N.of_nat (length x) ≤ SIZE_MAX)%N →
     length x < fuel →
     Map_binary_body order f fuel x y (res, w)
     = Map_binary_as_specified f x y (res, w)).
Proof.
  split_and!.
  - done.
  - intros u s'. apply Map_binary_body_resets.
  - apply Map_binary_body_as_specified.
Qed.

(** C10. [Batch::sum] reads the front of its argument before anything else: on
    the empty sequence that read is undefined and nothing has been counted
    or built; on a sequence with a first element the two API calls are
    counted and the splice along the new axis is reduced. The overload for
    nested sequences sums the concatenation of the inner sequences, so it
    is undefined exactly as that one is when every inner sequence is empty. *)
Theorem Batch_sum_needs_an_element batch (nested : list (list CNTK_Variable)) w :
  Batch_sum [] w = Throws (UndefinedBehavior "front() of an empty vector") w
  ∧ (∀ first rest, batch = first :: rest →
       Batch_sum batch w =
         (CountAPICalls 2 ;;
          let* spliced :=
            Splice batch (Axis_static (int_of_size_t (ShapeRank first))) in
          ReduceSum spliced Axis_DropLastAxis) w)
  ∧ Batch_sum_nested nested w = Batch_sum (concat nested) w
  ∧ (Forall (fun inner => inner = []) nested →
       Batch_sum_nested nested w
       = Throws (UndefinedBehavior "front() of an empty vector") w)
  ∧ (concat nested = [] ↔ Forall (fun inner => inner = []) nested).
Proof.
  assert (concat nested = [] ↔ Forall (fun inner => inner = []) nested) as Hc.
  { induction nested as [|b bs IH]; simpl.
    - split; [constructor | done].
    - rewrite Forall_cons, <- IH. split.
      + by intros [-> ->]%app_eq_nil.
      + by intros [-> ->]. }
  assert (Batch_sum_nested nested w = Batch_sum (concat nested) w) as Hn.
  { unfold Batch_sum_nested. by rewrite allSummands_concat. }
  split_and!; [done| |done| |done].
  - by intros first rest ->.
  - intros Hall. apply Hc in Hall. by rewrite Hn, Hall.
Qed.

Lemma first_occurrences_app (l1 l2 : list CNTK_Variable) :
  first_occurrences (l1 ++ l2)
  = first_occurrences l1
    ++ filter (fun q => q ∉ first_occurrences l1) (first_occurrences l2).
Proof.
  rewrite <- (unvisited_empty (l1 ++ l2)), unvisited_app, unvisited_empty.
  f_equal. rewrite unvisited_first_occurrences. apply list_filter_iff.
  intros q. rewrite first_occurrences_elem_of. set_solver.
Qed.

Lemma Parameters_Ok {Base : Type} (m : TModel Base) ps :
  Parameters m = Ok ps →
  ∃ r, get m = Some r ∧ ps = first_occurrences (listed r).
Proof.
  unfold Parameters. destruct (get m) as [r|]; [|done]. simpl.
  rewrite CollectParameters_listed, unvisited_empty. simpl.
  intros [= <-]. by exists r.
Qed.

Lemma Parameters_Some {Base : Type} (m : TModel Base) r :
  get m = Some r → Parameters m = Ok (first_occurrences (listed r)).
Proof.
  intros Hm. unfold Parameters. rewrite Hm. simpl.
  by rewrite CollectParameters_listed, unvisited_empty.
Qed.

Lemma compose_Ok (a b : UnaryModel) :
  compose a b =
    Ok (mkTModel (fun v => let* u := call a v in call b u)
          (Some (mkModelParameters []
                   (nonnull [("f"%string, get a); ("g"%string, get b)])))).
Proof.
  unfold compose. rewrite TModel_new_empty.
  by destruct (get a), (get b).
Qed.

(** C2. [a >> b] is a model whose call on [x] calls [a] on [x] and then
    [b] on what [a] returned, so for models that compute functions it gives
    [b (a x)]. Its registry has no parameters of its own and holds the
    registry of [a] under "f" and that of [b] under "g"; the parameters
    collected from it are those of [a] followed by those of [b] that [a]
    does not have: as a set, the union of the two. A model whose handle is
    null has no registry to nest and adds no parameter. *)
Theorem compose_law (a b : UnaryModel) :
  ∃ m r,
    compose a b = Ok m ∧ get m = Some r
    ∧ (∀ v, call m v = (let* u := call a v in call b u))
    ∧ (∀ (f g : CNTK_Variable → CNTK_Variable) pa pb v w,
         a = pure_unary f pa → b = pure_unary g pb →
         call m v w = Returns (g (f v)) w)
    ∧ m_parameters r = []
    ∧ (∀ ra, get a = Some ra → Nested r "f" = Ok ra)
    ∧ (∀ rb, get b = Some rb → Nested r "g" = Ok rb)
    ∧ (∀ name r', Nested r name = Ok r' →
         (name = "f"%string ∧ get a = Some r')
         ∨ (name = "g"%string ∧ get b = Some r'))
    ∧ (∀ pa pb, Parameters a = Ok pa → Parameters b = Ok pb →
         ∃ pc, Parameters m = Ok pc
           ∧ pc = pa ++ filter (fun q => q ∉ pa) pb
           ∧ NoDup pc
           ∧ (∀ q, q ∈ pc ↔ q ∈ pa ∨ q ∈ pb)
           ∧ list_to_set pc
             =@{gset CNTK_Variable} list_to_set pa ∪ list_to_set pb)
    ∧ (get a = None → ∀ pb, Parameters b = Ok pb → Parameters m = Ok pb)
    ∧ (get b = None → ∀ pa, Parameters a = Ok pa → Parameters m = Ok pa)
    ∧ (get a = None → get b = None → Parameters m = Ok []).
Proof.
  eexists _, _. split; [apply compose_Ok|]. simpl. split_and!; try done.
  - intros f g pa pb v w -> ->. done.
  - intros ra Ha. rewrite Ha. unfold Nested. simpl. done.
  - intros rb Hb. rewrite Hb. unfold Nested. simpl.
    by destruct (get a).
  - intros name r'. unfold Nested. simpl.
    destruct (get a) as [ra|], (get b) as [rb|]; simpl;
      repeat (match goal with
              | |- context [String.compare ?s ?t] =>
                  let E := fresh "E" in
                  destruct (String.compare s t) eqn:E;
                  [apply compare_Eq_iff in E|..]
              end; simpl);
      intros ?; simplify_eq; auto.
  - intros pa pb (ra & Ha & ->)%Parameters_Ok (rb & Hb & ->)%Parameters_Ok.
    erewrite Parameters_Some by reflexivity. rewrite Ha, Hb.
    change (listed (mkModelParameters [] _))
      with (listed ra ++ listed rb ++ []).
    rewrite app_nil_r, first_occurrences_app.
    eexists. split; [done|].
    assert (∀ q, q ∈ first_occurrences (listed ra)
                   ++ filter (fun q => q ∉ first_occurrences (listed ra))
                        (first_occurrences (listed rb))
                 ↔ q ∈ first_occurrences (listed ra)
                   ∨ q ∈ first_occurrences (listed rb)) as Hin.
    { intros q. rewrite elem_of_app, list_elem_of_filter.
      destruct (decide (q ∈ first_occurrences (listed ra))); naive_solver. }
    split_and!; [done| |done|].
    + rewrite <- first_occurrences_app. apply first_occurrences_NoDup.
    + apply set_eq. intros q.
      rewrite elem_of_union, !elem_of_list_to_set. apply Hin.
  - intros Ha pb (rb & Hb & ->)%Parameters_Ok.
    erewrite Parameters_Some by reflexivity. rewrite Ha, Hb.
    change (listed (mkModelParameters [] _)) with (listed rb ++ []).
    by rewrite app_nil_r.
  - intros Hb pa (ra & Ha & ->)%Parameters_Ok.
    erewrite Parameters_Some by reflexivity. rewrite Ha, Hb.
    change (listed (mkModelParameters [] _)) with (listed ra ++ []).
    by rewrite app_nil_r.
  - intros Ha Hb. erewrite Parameters_Some by reflexivity.
    by rewrite Ha, Hb.
Qed.

End combinator_properties.

(** ** The properties on concrete inputs *)

Lemma Parameters_collects_each_once_witness :
  ModelParameters_new [4%N] demo_shared_nested = Ok demo_shared
  ∧ listed demo_shared = [4%N; 3%N; 1%N; 1%N]
  ∧ (CollectParameters demo_shared ([], ∅)).1 = [4%N; 3%N; 1%N]
  ∧ NoDup (CollectParameters demo_shared ([], ∅)).1
  ∧ (1%N ∈ (CollectParameters demo_shared ([], ∅)).1 ↔ reaches demo_shared 1%N)
  ∧ (1%N ∈ (CollectParameters demo_shared ([], ∅)).1 ↔
       1%N ∈ [4%N] ∨ ∃ name r',
         wmap_find name demo_shared_nested = Some (Some r') ∧ reaches r' 1%N).
Proof.
  destruct (Parameters_collects_each_once (CNTK := demo_library) demo_shared)
    as (Hout & Hnd & Hreach & _ & _ & _ & Hbuilt).
  split; [reflexivity|]. split; [reflexivity|].
  split; [rewrite Hout; reflexivity|].
  split; [exact Hnd|]. split; [exact (Hreach 1%N)|].
  apply (Hbuilt [4%N] demo_shared_nested eq_refl).
  - simpl. repeat (constructor; [set_solver|]). constructor.
  - repeat constructor.
Defined.

Lemma ModelParameters_new_naming_witness :
  ModelParameters_new [1%N; 0%N; 3%N] demo_nested
    = Raise (LogicError "parameters must be named")
  ∧ ∃ r, ModelParameters_new [1%N; 3%N] demo_nested = Ok r
      ∧ ModelParameters_index r "W" = Ok 1%N
      ∧ ModelParameters_index r "b" = Ok 3%N.
Proof.
  split.
  - apply (proj1 (ModelParameters_new_naming (CNTK := demo_library)
                    [1%N; 0%N; 3%N] demo_nested)).
    exists 0%N. split; [by right; left | reflexivity].
  - destruct (proj2 (ModelParameters_new_naming (CNTK := demo_library)
                        [1%N; 3%N] demo_nested))
      as (r & Hr & _ & Hidx).
    { intros p Hp Hn.
      repeat (apply elem_of_cons in Hp as [->|Hp]; [discriminate Hn|]).
      by apply elem_of_nil in Hp. }
    exists r. split; [exact Hr|].
    split.
    + apply (Hidx ltac:(simpl; repeat (constructor; [set_solver|]); constructor)
                 1%N). by left.
    + apply (Hidx ltac:(simpl; repeat (constructor; [set_solver|]); constructor)
                 3%N). by right; left.
Defined.

(** Two parameters under one name: the registry is built, and only the
    first of them is in it. *)
Lemma ModelParameters_new_shared_name :
  Name 1%N = Name 2%N
  ∧ ModelParameters_new [1%N; 2%N] []
    = Ok (mkModelParameters [("W"%string, 1%N)] []).
Proof. split; reflexivity. Qed.

Lemma ModelParameters_new_nested_witness :
  ModelParameters_new [1%N; 3%N] demo_nested = Ok demo_built
  ∧ wmap_sorted demo_nested
  ∧ wmap_find "f" (m_nestedParameters demo_built) = Some demo_empty
  ∧ wmap_find "g" (m_nestedParameters demo_built) = Some demo_leaf
  ∧ wmap_find "z" (m_nestedParameters demo_built) = None.
Proof.
  assert (wmap_sorted demo_nested) as Hs by (repeat constructor).
  pose proof (ModelParameters_new_nested (CNTK := demo_library)
                [1%N; 3%N] demo_nested demo_built eq_refl Hs) as H.
  split; [reflexivity|]. split; [exact Hs|].
  split; [exact (proj1 (H "f"%string))|].
  split; [exact (proj1 (H "g"%string)) | exact (proj1 (H "z"%string))].
Defined.

(** A nested registry without parameters and without nested registries,
    held by a handle that is not null, is kept. *)
Lemma ModelParameters_new_keeps_empty_registry :
  m_parameters demo_empty = [] ∧ m_nestedParameters demo_empty = []
  ∧ ModelParameters_new [] [("f"%string, Some demo_empty)]
    = Ok (mkModelParameters [] [("f"%string, demo_empty)])
  ∧ Nested (mkModelParameters [] [("f"%string, demo_empty)]) "f" = Ok demo_empty.
Proof. repeat split. Qed.

Lemma lookup_by_name_witness :
  ModelParameters_new [1%N; 3%N] demo_nested = Ok demo_built
  ∧ wmap_sorted demo_nested
  ∧ ModelParameters_index demo_built "b" = Ok 3%N
  ∧ ModelParameters_index demo_built "c"
    = Raise (LogicError "no such parameter: c")
  ∧ Nested demo_built "g" = Ok demo_leaf
  ∧ Nested demo_built "z" = Raise (LogicError "no such captured model: z").
Proof.
  assert (wmap_sorted demo_nested) as Hs by (repeat constructor).
  pose proof (lookup_by_name (CNTK := demo_library)
                [1%N; 3%N] demo_nested demo_built eq_refl Hs) as H.
  split; [reflexivity|]. split; [exact Hs|].
  split; [exact (proj1 (H "b"%string))|].
  split; [exact (proj1 (H "c"%string))|].
  split; [exact (proj1 (proj2 (H "g"%string)))|].
  exact (proj1 (proj2 (H "z"%string))).
Defined.

(** The prefix that [LogParameters] is given reaches the registry's own
    parameters only: the nested registries are logged as they are with no
    prefix at all. *)
Lemma LogParameters_prefix_stays `{CNTK : CNTKLibrary}
    (ps : wmap CNTK_Variable) (ns : wmap ModelParameters) prefix s :
  LogParameters (mkModelParameters ps ns) prefix s
  = fold_left (log_one prefix) ps
      (LogParameters (mkModelParameters [] ns) EmptyString s).
Proof. reflexivity. Qed.

(** C8: the code against the specification. Logging [demo_deep], whose
    only parameter is named W and sits in the registry b inside the registry
    a, prints the parameter as "b.W" and leaves that as its debug name, where
    the specification asks for "a.b.W": the recursive call passes on the
    name of the nested registry alone, without the prefix it was given.
    Nested registries are printed before the registry's own parameters. *)
Theorem LogParameters_drops_outer_prefix :
  stderr (LogParameters demo_deep "" (mkLogState [] ∅))
    = [mkLogLine "b.W" "<tensor>"]
  ∧ debug_name (LogParameters demo_deep "" (mkLogState [] ∅)) !! 1%N
    = Some "b.W"%string
  ∧ printed_name <$> stderr (LogParameters demo_shared "" (mkLogState [] ∅))
    = ["x.W"; "a.b"; "c.W"; "E"]%string.
Proof. repeat split. Qed.

Lemma compose_law_witness :
  ∃ m, compose (demo_succ (Some demo_leaf)) (demo_double (Some demo_shared))
         = Ok m
    ∧ call m 5%N demo_world = Returns 12%N demo_world
    ∧ TModel_Nested m "f" = Ok demo_leaf
    ∧ TModel_Nested m "g" = Ok demo_shared
    ∧ Parameters m = Ok [1%N; 4%N; 3%N].
Proof.
  destruct (compose_law (CNTK := demo_library)
              (demo_succ (Some demo_leaf)) (demo_double (Some demo_shared)))
    as (m & r & Hm & Hr & _ & Hpure & _ & Hf & Hg & _ & Hps & _).
  exists m. split; [exact Hm|].
  split; [exact (Hpure _ _ _ _ 5%N demo_world eq_refl eq_refl)|].
  unfold TModel_Nested. rewrite Hr. simpl.
  split; [exact (Hf _ eq_refl)|]. split; [exact (Hg _ eq_refl)|].
  destruct (Hps [1%N] [4%N; 3%N; 1%N] eq_refl eq_refl) as (pc & Hpc & -> & _).
  exact Hpc.
Defined.



Lemma CurrentMapIndex_protocol_witness :
  keeps_index demo_add
  ∧ Map_binary_body call_then_element demo_add 3
      [1%N; 2%N] [10%N; 20%N] ([], demo_world)
    = Map_binary_as_specified demo_add [1%N; 2%N] [10%N; 20%N] ([], demo_world)
  ∧ Map_binary_as_specified demo_add [1%N; 2%N] [10%N; 20%N] ([], demo_world)
    = Returns tt ([11%N; 22%N], demo_world).
Proof.
  assert (keeps_index demo_add) as Hk.
  { intros a b w v w' H. by injection H as _ <-. }
  split; [exact Hk|]. split; [|reflexivity].
  apply (proj2 (proj2 (CurrentMapIndex_protocol (CNTK := demo_library)
           call_then_element demo_add 3
           [1%N; 2%N] [10%N; 20%N] [] demo_world)) Hk eq_refl).
  - by vm_compute.
  - simpl. lia.
Defined.

(** A model that maps inside its body. The call that computes element [0]
    is entered with the index showing [0] and returns with it showing
    [SIZE_MAX]. When the element is designated after the call, the outer
    loop then writes to [res[SIZE_MAX]]; when it is designated before, the
    element is stored, the index wraps round to [0] and the loop starts
    again, whatever the fuel. The run of the specification stores the
    element at place [0] and returns. *)
Lemma Map_binary_reentrant :
  call (demo_reentrant call_then_element) 1%N 10%N
      (set_CurrentMapIndex 0 demo_world)
    = Returns 11%N (set_CurrentMapIndex SIZE_MAX demo_world)
  ∧ Map_binary_body call_then_element (demo_reentrant call_then_element) 3
      [1%N] [10%N] ([], demo_world)
    = Throws (UndefinedBehavior "vector subscript out of range")
        ([0%N], demo_world)
  ∧ (∀ fuel,
       Map_binary_body element_then_call (demo_reentrant element_then_call)
         fuel [1%N] [10%N] ([], demo_world)
       = OutOfFuel)
  ∧ (∀ order,
       Map_binary_as_specified (demo_reentrant order) [1%N] [10%N]
         ([], demo_world)
       = Returns tt ([11%N], demo_world)).
Proof.
  assert (∀ fuel v,
            Map_binary_loop element_then_call fuel
              (demo_reentrant element_then_call) [1%N] [10%N]
              ([v], set_CurrentMapIndex 0 demo_world)
            = OutOfFuel) as Hloop.
  { induction fuel as [|fuel IH]; intros v; [reflexivity|]. exact (IH 11%N). }
  split; [reflexivity|]. split; [reflexivity|]. split; [|by intros []].
  intros fuel. unfold Map_binary_body.
  rewrite decide_True by done.
  erewrite bind_Returns by reflexivity.
  erewrite bind_Returns by reflexivity.
  erewrite bind_Returns by reflexivity.
  apply bind_OutOfFuel. exact (Hloop fuel 0%N).
Qed.

Lemma Batch_sum_needs_an_element_witness :
  Batch_sum [1%N; 2%N; 3%N] demo_world
    = Returns 6%N (mkWorld SIZE_MAX 2 tt)
  ∧ Batch_sum_nested [[]; []] demo_world
    = Throws (UndefinedBehavior "front() of an empty vector") demo_world
  ∧ Batch_sum_nested [[]; [1%N; 2%N]; [3%N]] demo_world
    = Batch_sum [1%N; 2%N; 3%N] demo_world.
Proof.
  destruct (Batch_sum_needs_an_element (CNTK := demo_library)
              [1%N; 2%N; 3%N] [[]; []] demo_world)
    as (_ & Hsum & _ & Hempty & _).
  destruct (Batch_sum_needs_an_element (CNTK := demo_library)
              [] [[]; [1%N; 2%N]; [3%N]] demo_world)
    as (_ & _ & Hnested & _).
  split; [rewrite (Hsum _ _ eq_refl); reflexivity|].
  split; [apply Hempty; by repeat constructor | exact Hnested].
Defined.

(** ** Numbered nesting *)

Section wmap_assign_facts.
Context {V : Type}.
Implicit Types (m : wmap V) (k : string) (v : V).

Lemma wmap_find_assign_eq k v m : wmap_find k (wmap_assign k v m) = Some v.
Proof.
  induction m as [|[k1 v1] m IH]; simpl.
  - by rewrite compare_refl.
  - destruct (String.compare k k1) eqn:E; simpl.
    + by rewrite E.
    + by rewrite compare_refl.
    + by rewrite E.
Qed.

Lemma wmap_find_assign_ne k k' v m :
  k ≠ k' → wmap_find k (wmap_assign k' v m) = wmap_find k m.
Proof.
  intros Hne. induction m as [|[k1 v1] m IH]; simpl.
  - destruct (String.compare k k') eqn:E; [|done..].
    by apply compare_Eq_iff in E.
  - destruct (String.compare k' k1) eqn:E1; simpl.
    + apply compare_Eq_iff in E1 as ->.
      destruct (String.compare k k1) eqn:E; [|done..].
      by apply compare_Eq_iff in E.
    + destruct (String.compare k k') eqn:E; [|done..].
      by apply compare_Eq_iff in E.
    + by rewrite IH.
Qed.

Lemma wmap_assign_sorted k v m : wmap_sorted m → wmap_sorted (wmap_assign k v m).
Proof.
  induction m as [|[k1 v1] m IH]; simpl; intros Hs; [constructor|].
  destruct (String.compare k k1) eqn:E.
  - inversion Hs; subst; by constructor.
  - by constructor.
  - apply compare_Gt_Lt in E.
    specialize (IH (wmap_sorted_tail _ _ Hs)).
    destruct m as [|[k2 v2] m]; simpl in *; [by repeat constructor|].
    inversion Hs; subst.
    destruct (String.compare k k2) eqn:E2; by constructor.
Qed.

Lemma wmap_assign_length k v m :
  wmap_find k m = None → length (wmap_assign k v m) = S (length m).
Proof.
  induction m as [|[k1 v1] m IH]; simpl; [done|].
  destruct (String.compare k k1) eqn:E; [done|done|].
  intros Hm. simpl. by rewrite IH.
Qed.

End wmap_assign_facts.

Lemma append_cancel_r (s1 s2 t : string) : s1 +:+ t = s2 +:+ t → s1 = s2.
Proof.
  assert (∀ s u : string, String.length (s +:+ u)
                           = (String.length s + String.length u)%nat) as Hlen.
  { induction s as [|c s IH]; intros u; simpl; [done|]. by rewrite IH. }
  revert s2. induction s1 as [|c s1 IH]; intros [|d s2]; simpl; intros Heq.
  - done.
  - apply (f_equal String.length) in Heq. simpl in Heq.
    rewrite !Hlen in Heq. simpl in Heq. lia.
  - apply (f_equal String.length) in Heq. simpl in Heq.
    rewrite !Hlen in Heq. simpl in Heq. lia.
  - injection Heq as -> Heq. f_equal. by apply IH.
Qed.

Lemma numbered_name_inj (i j : nat) : numbered_name i = numbered_name j → i = j.
Proof.
  unfold numbered_name. simpl. intros [= Heq].
  apply (append_cancel_r (pretty (N.of_nat i)) (pretty (N.of_nat j))) in Heq.
  apply (inj pretty) in Heq. lia.
Qed.

Section numbered_facts.
Context `{CNTK : CNTKLibrary}.

Lemma NameNumberedParameters_fold (l : list ModelParametersPtr) :
  ∀ acc : wmap ModelParametersPtr,
    wmap_sorted acc →
    (∀ j, length acc ≤ j → wmap_find (numbered_name j) acc = None) →
    let res :=
      fold_left (fun res p => wmap_assign (numbered_name (length res)) p res)
                l acc in
    wmap_sorted res
    ∧ length res = length acc + length l
    ∧ ∀ j, wmap_find (numbered_name j) res =
        if decide (j < length acc) then wmap_find (numbered_name j) acc
        else l !! (j - length acc).
Proof.
  induction l as [|p l IH]; intros acc Hs Hfresh; simpl.
  - split_and!; [done|lia|]. intros j. case_decide; [done|].
    rewrite Hfresh by lia. done.
  - set (acc' := wmap_assign (numbered_name (length acc)) p acc).
    assert (length acc' = S (length acc)) as Hlen.
    { apply wmap_assign_length, Hfresh. lia. }
    destruct (IH acc') as (Hs' & Hlen' & Hfind).
    { by apply wmap_assign_sorted. }
    { intros j Hj. unfold acc'. rewrite wmap_find_assign_ne.
      - apply Hfresh. lia.
      - intros Heq%numbered_name_inj. lia. }
    split_and!; [done|lia|]. intros j. rewrite Hfind, Hlen.
    destruct (decide (j = length acc)) as [->|Hne].
    + rewrite decide_True by lia. rewrite decide_False by lia.
      unfold acc'. rewrite wmap_find_assign_eq. by rewrite Nat.sub_diag.
    + repeat case_decide; try lia.
      * unfold acc'. rewrite wmap_find_assign_ne; [done|].
        intros Heq%numbered_name_inj. lia.
      * replace (j - length acc) with (S (j - S (length acc))) by lia. done.
Qed.

(** X1. [NameNumberedParameters] binds the handle at place [i] of the
    vector to the name "[i]" in decimal, and nothing else: the map has as
    many bindings as the vector has handles. In the model built from the
    vector, [Nested] on "[i]" gives the registry behind handle [i], and is
    a logic error when that handle is null or [i] is past the end. *)
Theorem NameNumberedParameters_lookup (nested : list ModelParametersPtr) :
  wmap_sorted (NameNumberedParameters nested)
  ∧ length (NameNumberedParameters nested) = length nested
  ∧ (∀ i, wmap_find (numbered_name i) (NameNumberedParameters nested)
          = nested !! i)
  ∧ (∀ (Base : Type) (f : Base),
       ∃ m, TModel_numbered nested f = Ok m
         ∧ call m = f
         ∧ ∀ i, TModel_Nested m (numbered_name i) =
             match nested !! i with
             | Some (Some r) => Ok r
             | _ => Raise (LogicError
                      ("no such captured model: " +:+ numbered_name i))
             end).
Proof.
  destruct (NameNumberedParameters_fold nested []) as (Hs & Hlen & Hfind).
  { constructor. }
  { done. }
  assert (∀ i, wmap_find (numbered_name i) (NameNumberedParameters nested)
               = nested !! i) as Hfind'.
  { intros i. unfold NameNumberedParameters. rewrite Hfind. simpl.
    by rewrite Nat.sub_0_r. }
  split_and!; [done|done|done|].
  intros Base f. unfold TModel_numbered. rewrite TModel_new_empty.
  eexists. split; [done|]. split; [done|]. intros i.
  unfold TModel_Nested, Nested. simpl.
  rewrite (ModelParameters_new_nested_find [] (NameNumberedParameters nested)
             _ eq_refl Hs).
  rewrite Hfind'. by destruct (nested !! i) as [[r|]|].
Qed.

(** X2. The numbered names are ordered as strings, not as numbers: of
    eleven registries the one at place ten comes right after the one at
    place zero, in the map and in the parameters collected from the model. *)
Theorem NameNumberedParameters_order
    (r0 r1 r2 r3 r4 r5 r6 r7 r8 r9 r10 : ModelParameters)
    (Base : Type) (f : Base) :
  NameNumberedParameters
    (Some <$> [r0; r1; r2; r3; r4; r5; r6; r7; r8; r9; r10])
  = [("[0]", Some r0); ("[10]", Some r10); ("[1]", Some r1);
     ("[2]", Some r2); ("[3]", Some r3); ("[4]", Some r4);
     ("[5]", Some r5); ("[6]", Some r6); ("[7]", Some r7);
     ("[8]", Some r8); ("[9]", Some r9)]%string
  ∧ ∃ m, TModel_numbered
           (Some <$> [r0; r1; r2; r3; r4; r5; r6; r7; r8; r9; r10]) f = Ok m
      ∧ Parameters m
        = Ok (first_occurrences
                (listed r0 ++ listed r10 ++ listed r1 ++ listed r2
                 ++ listed r3 ++ listed r4 ++ listed r5 ++ listed r6
                 ++ listed r7 ++ listed r8 ++ listed r9)).
Proof.
  assert (NameNumberedParameters
            (Some <$> [r0; r1; r2; r3; r4; r5; r6; r7; r8; r9; r10])
          = [("[0]", Some r0); ("[10]", Some r10); ("[1]", Some r1);
             ("[2]", Some r2); ("[3]", Some r3); ("[4]", Some r4);
             ("[5]", Some r5); ("[6]", Some r6); ("[7]", Some r7);
             ("[8]", Some r8); ("[9]", Some r9)]%string) as Hmap.
  { reflexivity. }
  split; [exact Hmap|].
  unfold TModel_numbered. rewrite TModel_new_empty, Hmap.
  eexists. split; [done|].
  erewrite Parameters_Some by reflexivity.
  do 2 f_equal. simpl. by rewrite app_nil_r.
Qed.

End numbered_facts.

(** ** [Batch::map] and the broadcasting model *)

Section broadcast_facts.
Context `{CNTK : CNTKLibrary}.
Implicit Types (f : UnaryModel) (res batch : list CNTK_Variable).
Implicit Types (w : World LibraryState).

Lemma each_applied_cons (h : CNTK_Variable → M (World LibraryState) CNTK_Variable)
    a batch w :
  each_applied h (a :: batch) w =
    match h a w with
    | Returns v w1 =>
        match each_applied h batch w1 with
        | Returns vs w2 => Returns (v :: vs) w2
        | Throws e w2 => Throws e w2
        | OutOfFuel => OutOfFuel
        end
    | Throws e w1 => Throws e w1
    | OutOfFuel => OutOfFuel
    end.
Proof. done. Qed.

Lemma for_each_push_cons f a batch acc w :
  for_each (a :: batch) (fun a =>
      let* v := in_process (call f a) in
      on_res (fun res => res ++ [v])) (acc, w) =
    match call f a w with
    | Returns v w1 =>
        for_each batch (fun a =>
          let* v := in_process (call f a) in
          on_res (fun res => res ++ [v])) (acc ++ [v], w1)
    | Throws e w1 => Throws e (acc, w1)
    | OutOfFuel => OutOfFuel
    end.
Proof.
  cbn [for_each]. unfold bind at 1 2, in_process at 1. cbn [fst snd].
  by destruct (call f a w).
Qed.

(** The loop that pushes the values of the calls, next to the calls
    themselves: they return together, with the values appended to what the
    vector held, and they throw together, on the same process. *)
Lemma for_each_push_each_applied f batch :
  ∀ acc w,
    match for_each batch (fun a =>
            let* v := in_process (call f a) in
            on_res (fun res => res ++ [v])) (acc, w),
          each_applied (call f) batch w with
    | Returns _ s, Returns out w' => s = (acc ++ out, w')
    | Throws e s, Throws e' w' =>
        e = e' ∧ s.2 = w'
        ∧ ∃ partial, s.1 = acc ++ partial ∧ length partial < length batch
    | OutOfFuel, OutOfFuel => True
    | _, _ => False
    end.
Proof.
  induction batch as [|a batch IH]; intros acc w.
  - simpl. unfold ret. by rewrite app_nil_r.
  - rewrite for_each_push_cons, each_applied_cons.
    destruct (call f a w) as [v w1|e w1|]; [| |done].
    + specialize (IH (acc ++ [v]) w1).
      destruct (for_each (S := SeqState) batch _ (acc ++ [v], w1)) as [u s|e s|],
               (each_applied (call f) batch w1) as [out w2|e' w2|];
        try done.
      * rewrite IH. by rewrite <- app_assoc.
      * destruct IH as (-> & <- & partial & Hp & Hlen).
        split_and!; [done..|]. exists (v :: partial).
        rewrite Hp, <- app_assoc. split; [done|]. simpl. lia.
    + split_and!; [done..|]. exists []. rewrite app_nil_r.
      split; [done|]. simpl. lia.
Qed.

Lemma each_applied_pointwise (h : CNTK_Variable → M (World LibraryState) CNTK_Variable)
    (g : CNTK_Variable → CNTK_Variable) batch w :
  (∀ a w0, h a w0 = Returns (g a) w0) →
  each_applied h batch w = Returns (g <$> batch) w.
Proof.
  intros Hh. induction batch as [|a batch IH]; simpl; [done|].
  unfold bind at 1. rewrite Hh. unfold bind. by rewrite IH.
Qed.

Lemma Batch_map_each_applied f batch w :
  Batch_map f batch w = each_applied (call f) batch w.
Proof.
  unfold Batch_map, with_local_res.
  pose proof (for_each_push_each_applied f batch [] w) as H.
  destruct (for_each (S := SeqState) batch _ ([], w)) as [u s|e s|],
           (each_applied (call f) batch w) as [out w'|e' w'|]; try done.
  - by rewrite H.
  - by destruct H as (-> & -> & _).
Qed.

Lemma broadcast_outcome f batch res w :
  broadcast f batch (res, w) =
    match each_applied (call f) batch w with
    | Returns out w' => Returns tt (out, w')
    | Throws e w' => Throws e (res, w')
    | OutOfFuel => OutOfFuel
    end.
Proof.
  unfold broadcast, bind, in_process. simpl.
  rewrite Batch_map_each_applied.
  by destruct (each_applied (call f) batch w).
Qed.

(** X3. [Batch::map] makes the calls in the order of the batch and gives
    back the values they return, as many as the batch has elements; when a
    call throws, the throw goes through with the process as that call left
    it. For a model that computes a function [g] the result is [g] mapped
    over the batch. *)
Theorem Batch_map_in_order f (g : CNTK_Variable → CNTK_Variable)
    (p : ModelParametersPtr) batch w :
  Batch_map f batch w = each_applied (call f) batch w
  ∧ (∀ out w', Batch_map f batch w = Returns out w' →
       length out = length batch)
  ∧ Batch_map (pure_unary g p) batch w = Returns (g <$> batch) w
  ∧ Batch_map f [] w = Returns [] w.
Proof.
  split_and!.
  - apply Batch_map_each_applied.
  - intros out w'. rewrite Batch_map_each_applied.
    apply each_applied_length.
  - rewrite Batch_map_each_applied. by apply each_applied_pointwise.
  - done.
Qed.


(** X5. For models that compute functions, broadcasting [a >> b] over a
    sequence gives what broadcasting [b] gives over the output of
    broadcasting [a]: [b] of [a] of each element, in order. *)
Theorem broadcast_compose (fa fb : CNTK_Variable → CNTK_Variable)
    (pa pb : ModelParametersPtr) batch res w :
  ∃ m, compose (pure_unary fa pa) (pure_unary fb pb) = Ok m
    ∧ broadcast m batch (res, w) = Returns tt (fb <$> (fa <$> batch), w)
    ∧ ∀ res1,
        broadcast (pure_unary fa pa) batch (res1, w)
          = Returns tt (fa <$> batch, w)
        ∧ broadcast (pure_unary fb pb) (fa <$> batch) (res, w)
          = Returns tt (fb <$> (fa <$> batch), w).
Proof.
  eexists. split; [apply compose_Ok|]. split.
  - rewrite broadcast_outcome. simpl.
    rewrite (each_applied_pointwise _ (fb ∘ fa)) by done.
    by rewrite list_fmap_compose.
  - intros res1. rewrite !broadcast_outcome. simpl.
    by rewrite !(each_applied_pointwise _ _ _ _ (fun _ _ => eq_refl)).
Qed.

End broadcast_facts.

(** ** Collecting into vectors and sets that are not empty *)

Section accumulator_facts.
Context `{CNTK : CNTKLibrary}.
Implicit Types (p q : CNTK_Variable) (r : ModelParameters).
Implicit Types (l res : list CNTK_Variable) (vis : gset CNTK_Variable).

Lemma unvisited_elem_of vis l p : p ∈ unvisited vis l ↔ p ∈ l ∧ p ∉ vis.
Proof.
  rewrite unvisited_first_occurrences, list_elem_of_filter.
  rewrite first_occurrences_elem_of. tauto.
Qed.

Lemma unvisited_NoDup vis l : NoDup (unvisited vis l).
Proof.
  rewrite unvisited_first_occurrences.
  apply NoDup_filter, first_occurrences_NoDup.
Qed.

Lemma unvisited_none vis l : (∀ p, p ∈ l → p ∈ vis) → unvisited vis l = [].
Proof.
  induction l as [|q l IH]; intros Hall; simpl; [done|].
  rewrite decide_True by (apply Hall; by left).
  apply IH. intros p Hp. apply Hall. by right.
Qed.

(** X6. [CollectParameters] on a vector and a set that already hold
    something: the vector keeps what it held and gets, each once, the
    parameters the registry reaches that the set did not hold; the set gets
    the same ones. Collecting the same registry once more changes nothing,
    and a vector without repetitions whose elements are all in the set
    stays so. *)
Theorem CollectParameters_accumulates r res vis :
  ∃ new,
    CollectParameters r (res, vis) = (res ++ new, vis ∪ list_to_set new)
    ∧ NoDup new
    ∧ (∀ p, p ∈ new ↔ reaches r p ∧ p ∉ vis)
    ∧ CollectParameters r (CollectParameters r (res, vis))
      = CollectParameters r (res, vis)
    ∧ (NoDup res → (∀ p, p ∈ res → p ∈ vis) →
       NoDup (res ++ new) ∧ ∀ p, p ∈ res ++ new → p ∈ vis ∪ list_to_set new).
Proof.
  exists (unvisited vis (listed r)).
  assert (vis ∪ list_to_set (unvisited vis (listed r))
          = vis ∪ list_to_set (listed r)) as Hvis.
  { apply set_eq. intros p.
    rewrite !elem_of_union, !elem_of_list_to_set, unvisited_elem_of.
    destruct (decide (p ∈ vis)); tauto. }
  split_and!.
  - by rewrite CollectParameters_listed, Hvis.
  - apply unvisited_NoDup.
  - intros p. by rewrite unvisited_elem_of, reaches_listed.
  - rewrite !CollectParameters_listed.
    rewrite (unvisited_none (vis ∪ list_to_set (listed r))).
    + rewrite app_nil_r. f_equal. set_solver.
    + intros p Hp. set_solver.
  - intros Hnd Hsub. split.
    + apply NoDup_app. split_and!; [done| |apply unvisited_NoDup].
      intros p Hp Hnew. apply unvisited_elem_of in Hnew as [_ Hnew].
      by apply Hnew, Hsub.
    + intros p [Hp|Hp]%elem_of_app; [set_solver|].
      apply elem_of_union. right. by apply elem_of_list_to_set.
Qed.

End accumulator_facts.

(** ** What [LogParameters] writes, for every registry *)

Section log_facts.
Context `{CNTK : CNTKLibrary}.
Implicit Types (p q : CNTK_Variable) (r : ModelParameters) (s : LogState).

Lemma logged_listed r : logged r ≡ₚ listed r.
Proof.
  induction r as [ps ns IH] using ModelParameters_nested_ind. simpl.
  rewrite (comm (++)). f_equiv.
  induction IH as [|[k r'] ns Hr' _ IHns]; simpl; [done|].
  by rewrite Hr', IHns.
Qed.

Lemma log_one_fold prefix (ps : wmap CNTK_Variable) s :
  stderr (fold_left (log_one prefix) ps s) = stderr s ++ (own_line prefix <$> ps)
  ∧ dom (debug_name (fold_left (log_one prefix) ps s))
    = dom (debug_name s) ∪ list_to_set ps.*2
  ∧ ∀ p, p ∉ ps.*2 →
      debug_name (fold_left (log_one prefix) ps s) !! p = debug_name s !! p.
Proof.
  revert s. induction ps as [|[k q] ps IH]; intros s; simpl.
  - rewrite app_nil_r. split_and!; [done| |done]. set_solver.
  - destruct (IH (log_one prefix s (k, q))) as (Herr & Hdom & Hout).
    rewrite Herr, Hdom. unfold log_one, DebugUpdateName, fprintf_stderr.
    simpl. split_and!.
    + by rewrite <- app_assoc.
    + rewrite dom_insert_L. set_solver.
    + intros p Hp. apply not_elem_of_cons in Hp as [Hne Hp].
      rewrite Hout by done. unfold log_one, DebugUpdateName. simpl.
      by rewrite lookup_insert_ne.
Qed.

Lemma LogParameters_writes r :
  ∀ prefix s, ∃ lines,
    stderr (LogParameters r prefix s) = stderr s ++ lines
    ∧ printed_value <$> lines = AsString <$> logged r
    ∧ (∃ before, lines = before ++ (own_line prefix <$> m_parameters r))
    ∧ dom (debug_name (LogParameters r prefix s))
      = dom (debug_name s) ∪ list_to_set (logged r)
    ∧ ∀ p, p ∉ logged r →
        debug_name (LogParameters r prefix s) !! p = debug_name s !! p.
Proof.
  induction r as [ps ns IH] using ModelParameters_nested_ind.
  intros prefix s. cbn [LogParameters logged m_parameters].
  assert (∀ s0, ∃ lines,
    stderr (fold_left (fun s kv => LogParameters kv.2 (kv.1 +:+ ".") s) ns s0)
      = stderr s0 ++ lines
    ∧ printed_value <$> lines
      = AsString <$> concat (map (fun kv => logged kv.2) ns)
    ∧ dom (debug_name
        (fold_left (fun s kv => LogParameters kv.2 (kv.1 +:+ ".") s) ns s0))
      = dom (debug_name s0)
        ∪ list_to_set (concat (map (fun kv => logged kv.2) ns))
    ∧ ∀ p, p ∉ concat (map (fun kv => logged kv.2) ns) →
        debug_name
          (fold_left (fun s kv => LogParameters kv.2 (kv.1 +:+ ".") s) ns s0)
          !! p = debug_name s0 !! p) as Hnested.
  { induction IH as [|[k r'] ns Hr' _ IHns]; intros s0; simpl.
    - exists []. rewrite app_nil_r. split_and!; [done..| |done]. set_solver.
    - simpl in Hr'.
      destruct (Hr' (k +:+ ".") s0) as (l1 & E1 & V1 & _ & D1 & O1).
      destruct (IHns (LogParameters r' (k +:+ ".") s0))
        as (l2 & E2 & V2 & D2 & O2).
      exists (l1 ++ l2). rewrite E2, E1, D2, D1. split_and!.
      + by rewrite <- app_assoc.
      + by rewrite !fmap_app, V1, V2.
      + rewrite list_to_set_app_L. set_solver.
      + intros p Hp. apply not_elem_of_app in Hp as [Hp1 Hp2].
        by rewrite O2, O1. }
  destruct (Hnested s) as (l1 & E1 & V1 & D1 & O1).
  destruct (log_one_fold prefix ps
    (fold_left (fun s kv => LogParameters kv.2 (kv.1 +:+ ".") s) ns s))
    as (E2 & D2 & O2).
  exists (l1 ++ (own_line prefix <$> ps)). rewrite E2, E1, D2, D1. split_and!.
  - by rewrite <- app_assoc.
  - rewrite !fmap_app, V1. f_equal. rewrite <- !list_fmap_compose.
    by apply list_fmap_ext.
  - by exists l1.
  - rewrite list_to_set_app_L. set_solver.
  - intros p Hp. apply not_elem_of_app in Hp as [Hp1 Hp2].
    by rewrite O2, O1.
Qed.

(** X7. [LogParameters] of any registry, with any prefix, adds lines to
    what [stderr] holds and takes none away: one line for every place where
    the registry or a registry nested in it holds a parameter (a parameter
    held in two places is printed twice, where [Parameters] lists it once),
    those of the nested registries first and those of the registry's own
    parameters, under the prefix, last. The handles that get a debug name
    are the parameters reached; every other handle keeps the name it had. *)
Theorem LogParameters_lines r prefix s :
  ∃ lines,
    stderr (LogParameters r prefix s) = stderr s ++ lines
    ∧ printed_value <$> lines = AsString <$> logged r
    ∧ logged r ≡ₚ listed r
    ∧ length lines = length (listed r)
    ∧ length (first_occurrences (listed r)) ≤ length lines
    ∧ (∃ before, lines = before ++ (own_line prefix <$> m_parameters r))
    ∧ (∀ p, p ∈ dom (debug_name (LogParameters r prefix s))
            ↔ p ∈ dom (debug_name s) ∨ reaches r p)
    ∧ (∀ p, ¬ reaches r p →
         debug_name (LogParameters r prefix s) !! p = debug_name s !! p).
Proof.
  destruct (LogParameters_writes r prefix s) as (lines & E & V & B & D & O).
  assert (length lines = length (listed r)) as Hlen.
  { rewrite <- (logged_listed r).
    rewrite <- (length_fmap printed_value lines), V. apply length_fmap. }
  exists lines. split_and!; [done|done|apply logged_listed|done| |done| |].
  - rewrite Hlen. apply sublist_length, first_occurrences_sublist.
  - intros p. rewrite D, elem_of_union, elem_of_list_to_set.
    by rewrite reaches_listed, (logged_listed r).
  - intros p Hp. apply O. by rewrite (logged_listed r), <- reaches_listed.
Qed.

End log_facts.

(** ** The registries of the models that the combinators build *)

Section wrapper_facts.
Context `{CNTK : CNTKLibrary}.
Implicit Types (p q : CNTK_Variable) (r : ModelParameters) (name : string).

Lemma wrapped_registry {Base : Type} (h : ModelParametersPtr) (body : Base) :
  ∃ m, TModel_new [] (wmap_of_list [("f"%string, h)]) body = Ok m
    ∧ call m = body
    ∧ (∀ name, TModel_index m name
               = Raise (LogicError ("no such parameter: " +:+ name)))
    ∧ (∀ name, name ≠ "f"%string →
         TModel_Nested m name
         = Raise (LogicError ("no such captured model: " +:+ name)))
    ∧ (∀ r, h = Some r →
         Parameters m = Ok (first_occurrences (listed r))
         ∧ TModel_Nested m "f" = Ok r)
    ∧ (h = None →
         Parameters m = Ok []
         ∧ TModel_Nested m "f"
           = Raise (LogicError "no such captured model: f")).
Proof.
  eexists. split; [apply TModel_new_empty|]. split; [done|].
  split; [done|]. split.
  - intros name Hne. unfold TModel_Nested, Nested. simpl.
    destruct h as [r|]; simpl; [|done].
    destruct (String.compare name "f") eqn:E; [|done..].
    by apply compare_Eq_iff in E.
  - split.
    + intros r ->. split; [|done].
      erewrite Parameters_Some by reflexivity. simpl. by rewrite app_nil_r.
    + intros ->. split; [|done]. by erewrite Parameters_Some by reflexivity.
Qed.

(** X8. The models that [Batch::Map] builds, over a unary and over a binary
    model, have a registry of their own with no parameter in it, so looking
    up a parameter in them by name always fails; the registry of the mapped
    model is nested under "f" and under no other name. Over a model with a
    registry, [Parameters] of the map gives what [Parameters] of the model
    gives. Over a model built from a bare callable, whose handle is null and
    whose own [Parameters] goes through that null handle, [Parameters] of
    the map is the empty list and "f" is not bound. *)
Theorem Map_registry order (f : UnaryModel) (g : BinaryModel) :
  ∃ mu mb,
    Map_unary f = Ok mu ∧ Map_binary order g = Ok mb
    ∧ call mu = Map_unary_body f ∧ call mb = Map_binary_body order g
    ∧ (∀ name,
         TModel_index mu name
           = Raise (LogicError ("no such parameter: " +:+ name))
         ∧ TModel_index mb name
           = Raise (LogicError ("no such parameter: " +:+ name)))
    ∧ (∀ name, name ≠ "f"%string →
         TModel_Nested mu name
           = Raise (LogicError ("no such captured model: " +:+ name))
         ∧ TModel_Nested mb name
           = Raise (LogicError ("no such captured model: " +:+ name)))
    ∧ (∀ r, get f = Some r →
         Parameters mu = Parameters f ∧ TModel_Nested mu "f" = Ok r)
    ∧ (∀ r, get g = Some r →
         Parameters mb = Parameters g ∧ TModel_Nested mb "f" = Ok r)
    ∧ (get f = None →
         Parameters f
           = Raise (UndefinedBehavior "null ModelParametersPtr dereferenced")
         ∧ Parameters mu = Ok []
         ∧ TModel_Nested mu "f"
           = Raise (LogicError "no such captured model: f"))
    ∧ (get g = None →
         Parameters g
           = Raise (UndefinedBehavior "null ModelParametersPtr dereferenced")
         ∧ Parameters mb = Ok []
         ∧ TModel_Nested mb "f"
           = Raise (LogicError "no such captured model: f")).
Proof.
  destruct (wrapped_registry (get f) (Map_unary_body f))
    as (mu & Hmu & Hcu & Hiu & Hnu & Hsu & Hzu).
  destruct (wrapped_registry (get g) (Map_binary_body order g))
    as (mb & Hmb & Hcb & Hib & Hnb & Hsb & Hzb).
  exists mu, mb. split_and!; try done.
  - intros name Hne. split; [by apply Hnu | by apply Hnb].
  - intros r Hr. destruct (Hsu r Hr) as [-> ->].
    by rewrite (Parameters_Some f r Hr).
  - intros r Hr. destruct (Hsb r Hr) as [-> ->].
    by rewrite (Parameters_Some g r Hr).
  - intros Hf. destruct (Hzu Hf) as [-> ->].
    unfold Parameters. by rewrite Hf.
  - intros Hg. destruct (Hzb Hg) as [-> ->].
    unfold Parameters. by rewrite Hg.
Qed.

(** X9. Composition is associative in what it computes and in what it
    collects: [(a >> b) >> c] and [a >> (b >> c)] are both built, their
    calls have the same outcome on every argument and process, and
    [Parameters] gives the same list for both. Their registries are not
    the same tree: under "f" the first holds the registry of [a >> b], the
    second that of [a]. *)
Theorem compose_assoc (a b c : UnaryModel) :
  ∃ ab bc left right,
    compose a b = Ok ab ∧ compose b c = Ok bc
    ∧ compose ab c = Ok left ∧ compose a bc = Ok right
    ∧ (∀ v w, call left v w = call right v w)
    ∧ Parameters left = Parameters right
    ∧ TModel_Nested left "f" = deref (get ab)
    ∧ TModel_Nested right "g" = deref (get bc).
Proof.
  eexists _, _, _, _.
  split; [apply compose_Ok|]. split; [apply compose_Ok|].
  split; [apply compose_Ok|]. split; [apply compose_Ok|].
  split_and!.
  - intros v w. simpl. unfold bind.
    by destruct (call a v w) as [u w1|e w1|].
  - erewrite !Parameters_Some by reflexivity. f_equal.
    destruct (get a) as [ra|], (get b) as [rb|], (get c) as [rc|]; simpl;
      by rewrite ?app_nil_r, <- ?app_assoc.
  - by destruct (get c).
  - by destruct (get a).
Qed.

End wrapper_facts.

(** ** The order of [Parameters] *)

Section name_order_facts.
Context `{CNTK : CNTKLibrary}.
Implicit Types (p q : CNTK_Variable) (r : ModelParameters) (name : string).

Lemma wmap_insert_fresh_Permutation {V : Type} (k : string) (v : V) (m : wmap V) :
  wmap_find k m = None → wmap_insert k v m ≡ₚ (k, v) :: m.
Proof.
  induction m as [|[k1 v1] m IH]; simpl; [done|].
  destruct (String.compare k k1) eqn:E; [done|done|].
  intros Hm. rewrite (IH Hm). apply Permutation_swap.
Qed.

Lemma wmap_sorted_StronglySorted {V : Type} (m : wmap V) :
  wmap_sorted m → StronglySorted key_lt m.
Proof.
  induction m as [|[k v] m IH]; intros Hs; constructor.
  - apply IH. by eapply wmap_sorted_tail.
  - exact (wmap_sorted_above _ _ _ Hs).
Qed.

Lemma insert_parameters_Permutation (m : wmap CNTK_Variable) ps :
  (∀ p, p ∈ ps → Name p ≠ EmptyString) →
  NoDup (Name <$> ps) →
  (∀ p, p ∈ ps → wmap_find (Name p) m = None) →
  wmap_sorted m →
  ∃ m', insert_parameters m ps = Ok m' ∧ wmap_sorted m'
    ∧ m' ≡ₚ m ++ ((fun p => (Name p, p)) <$> ps).
Proof.
  revert m. induction ps as [|q ps IH]; intros m Hn Hnd Hfresh Hs; simpl.
  - exists m. by rewrite app_nil_r.
  - rewrite decide_False by (apply Hn; by left).
    apply NoDup_cons in Hnd as [Hq Hnd].
    destruct (IH (wmap_insert (Name q) q m)) as (m' & Hm' & Hs' & Hperm).
    + intros p Hp. apply Hn. by right.
    + done.
    + intros p Hp. rewrite wmap_find_insert_ne.
      * apply Hfresh. by right.
      * intros Heq. apply Hq. rewrite <- Heq. apply list_elem_of_fmap.
        by exists p.
    + by apply wmap_insert_sorted.
    + exists m'. split_and!; [done..|]. rewrite Hperm.
      rewrite wmap_insert_fresh_Permutation by (apply Hfresh; by left).
      by rewrite <- Permutation_middle.
Qed.

(** X10. A model built from a list of parameters whose names are not empty
    and pairwise distinct: [Parameters] gives back the parameters of the
    list, each once, in the ascending order of their names, whatever their
    order in the list; each is found under its name. *)
Theorem Parameters_in_name_order {Base : Type} (ps : list CNTK_Variable)
    (f : Base) :
  (∀ p, p ∈ ps → Name p ≠ EmptyString) →
  NoDup (Name <$> ps) →
  ∃ m l,
    TModel_with_parameters ps f = Ok m ∧ call m = f
    ∧ Parameters m = Ok l
    ∧ l ≡ₚ ps
    ∧ StronglySorted (fun p q => String.compare (Name p) (Name q) = Lt) l
    ∧ ∀ p, p ∈ ps → TModel_index m (Name p) = Ok p.
Proof.
  intros Hn Hnd.
  destruct (insert_parameters_Permutation [] ps Hn Hnd)
    as (m' & Hm' & Hs & Hperm); [done|constructor|].
  simpl in Hperm.
  assert (m'.*2 ≡ₚ ps) as Hvalues.
  { rewrite Hperm, <- list_fmap_compose. simpl. by rewrite list_fmap_id. }
  assert (Forall (fun kv => kv.1 = Name kv.2) m') as Hkeys.
  { rewrite Hperm. apply Forall_fmap. by apply Forall_true. }
  exists (mkTModel f (Some (mkModelParameters m' []))), (m'.*2).
  assert (TModel_with_parameters ps f
          = Ok (mkTModel f (Some (mkModelParameters m' [])))) as Hnew.
  { unfold TModel_with_parameters, TModel_new, ModelParameters_new.
    by rewrite Hm'. }
  split_and!; [done|done| |done| |].
  - erewrite Parameters_Some by reflexivity. simpl. rewrite app_nil_r.
    f_equal. apply first_occurrences_NoDup_id.
    rewrite Hvalues. by eapply NoDup_fmap_1.
  - apply wmap_sorted_StronglySorted in Hs. clear -Hs Hkeys.
    induction Hs as [|[k v] m Hs IH Hall]; simpl; constructor.
    + apply IH. by eapply Forall_inv_tail.
    + apply Forall_inv in Hkeys as Hk. apply Forall_inv_tail in Hkeys.
      apply Forall_fmap. unfold key_lt in Hall. simpl in *. subst.
      eapply Forall_impl;
        [apply Forall_and; split; [exact Hall|exact Hkeys]|].
      intros [k' v'] [H1 H2]. simpl in *. by subst.
  - intros p Hp. unfold TModel_index, ModelParameters_index. simpl.
    assert ((Name p, p) ∈ m') as Hin.
    { rewrite Hperm. apply list_elem_of_fmap. by exists p. }
    apply wmap_sorted_find in Hin; [|done]. by rewrite Hin.
Qed.

End name_order_facts.

(** ** The counter of API calls *)

Section counter_facts.
Context {L : Type}.
Implicit Types (w : World L) (n m : N).

(** X11. [CountAPICalls(n)] returns the counter as it leaves it, always
    below [2 ^ 64], and touches neither the map index nor the library.
    Counting [n] and then [m] is counting their sum, as a [size_t]; on a
    counter that a [size_t] holds, counting [0] reads it and changes
    nothing, and counting up to [2 ^ 64] wraps the counter round to [0]. *)
Theorem CountAPICalls_adds n m w :
  ∃ c1 w1 c2 w2,
    CountAPICalls n w = Returns c1 w1
    ∧ CountAPICalls m w1 = Returns c2 w2
    ∧ CountAPICalls ((n + m) mod 2 ^ 64) w = Returns c2 w2
    ∧ g_numAPICallsSoFar w1 = c1 ∧ (c1 < 2 ^ 64)%N
    ∧ CurrentMapIndex w1 = CurrentMapIndex w ∧ library w1 = library w
    ∧ ((g_numAPICallsSoFar w < 2 ^ 64)%N →
         CountAPICalls 0 w = Returns (g_numAPICallsSoFar w) w)
    ∧ ((g_numAPICallsSoFar w + n = 2 ^ 64)%N → c1 = 0%N).
Proof.
  eexists _, _, _, _. split; [reflexivity|]. split; [reflexivity|].
  simpl. split_and!; try done.
  - unfold CountAPICalls. simpl.
    assert (((g_numAPICallsSoFar w + n) mod 2 ^ 64 + m) mod 2 ^ 64
            = (g_numAPICallsSoFar w + (n + m) mod 2 ^ 64) mod 2 ^ 64)%N as ->.
    { rewrite N.Div0.add_mod_idemp_l, N.Div0.add_mod_idemp_r. f_equal. lia. }
    done.
  - by apply N.mod_lt.
  - intros Hc. unfold CountAPICalls. rewrite N.add_0_r, N.mod_small by done.
    by destruct w.
  - intros ->. by apply N.Div0.mod_same.
Qed.

End counter_facts.

(** ** [Map] over a binary model that has effects *)

Section effectful_facts.
Context `{CNTK : CNTKLibrary}.
Implicit Types (x y res : list CNTK_Variable) (w : World LibraryState).
Implicit Types (f : BinaryModel).

Lemma Map_binary_indexed_cons f k xk yk x y res w :
  k < length res →
  Map_binary_indexed f k (xk :: x) (yk :: y) (res, w) =
    match call f xk yk (set_CurrentMapIndex (N.of_nat k) w) with
    | Returns v w1 => Map_binary_indexed f (S k) x y (<[k := v]> res, w1)
    | Throws e w1 => Throws e (res, w1)
    | OutOfFuel => OutOfFuel
    end.
Proof.
  intros Hk. cbn [Map_binary_indexed].
  erewrite bind_Returns by reflexivity. cbn [fst snd].
  unfold bind at 1, in_process at 1. cbn [fst snd].
  destruct (call f xk yk _) as [v w1|e w1|]; [|done..].
  by erewrite bind_Returns by (by apply assign_res_in_range).
Qed.

Lemma each_applied_indexed_cons f k xk yk x y w :
  each_applied_indexed f k (xk :: x) (yk :: y) w =
    match call f xk yk (set_CurrentMapIndex (N.of_nat k) w) with
    | Returns v w1 =>
        match each_applied_indexed f (S k) x y w1 with
        | Returns vs w2 => Returns (v :: vs) w2
        | Throws e w2 => Throws e w2
        | OutOfFuel => OutOfFuel
        end
    | Throws e w1 => Throws e w1
    | OutOfFuel => OutOfFuel
    end.
Proof. done. Qed.

Lemma Map_binary_indexed_each_applied f :
  ∀ x y k res w,
    length x = length y → k + length x ≤ length res →
    match Map_binary_indexed f k x y (res, w),
          each_applied_indexed f k x y w with
    | Returns _ s, Returns out w' =>
        s = (take k res ++ out ++ drop (k + length x) res, w')
        ∧ length out = length x
    | Throws e s, Throws e' w' =>
        e = e' ∧ s.2 = w' ∧ length s.1 = length res
    | OutOfFuel, OutOfFuel => True
    | _, _ => False
    end.
Proof.
  induction x as [|xk x IH]; intros [|yk y] k res w Hlen Hk; simplify_eq/=.
  - by rewrite Nat.add_0_r, take_drop.
  - change (match Map_binary_indexed f k (xk :: x) (yk :: y) (res, w),
                  each_applied_indexed f k (xk :: x) (yk :: y) w with
            | Returns _ s, Returns out w' =>
                s = (take k res ++ out ++ drop (k + S (length x)) res, w')
                ∧ length out = S (length x)
            | Throws e s, Throws e' w' =>
                e = e' ∧ s.2 = w' ∧ length s.1 = length res
            | OutOfFuel, OutOfFuel => True
            | _, _ => False
            end).
    rewrite Map_binary_indexed_cons, each_applied_indexed_cons by lia.
    destruct (call f xk yk _) as [v w1|e w1|]; [| done..].
    specialize (IH y (S k) (<[k := v]> res) w1 Hlen).
    rewrite length_insert in IH. specialize (IH ltac:(lia)).
    destruct (Map_binary_indexed f (S k) x y _) as [u s|e s|],
             (each_applied_indexed f (S k) x y w1) as [vs w2|e' w2|];
      try done.
    destruct IH as [-> Hvs]. split; [|simpl; by rewrite Hvs].
    f_equal.
    rewrite (take_S_r _ _ v) by (apply list_lookup_insert_eq; lia).
    rewrite take_insert_ge by lia. rewrite drop_insert_lt by lia.
    replace (k + S (length x)) with (S k + length x) by lia.
    by rewrite <- app_assoc.
Qed.

Lemma each_applied_indexed_Throws f :
  ∀ x y k w e w',
    each_applied_indexed f k x y w = Throws e w' →
    ∃ j xj yj w0,
      x !! j = Some xj ∧ y !! j = Some yj
      ∧ CurrentMapIndex w0 = N.of_nat (k + j)
      ∧ call f xj yj w0 = Throws e w'.
Proof.
  induction x as [|xk x IH]; intros [|yk y] k w e w'; try done.
  rewrite each_applied_indexed_cons.
  destruct (call f xk yk _) as [v w1|e1 w1|] eqn:Hcall; [| |done].
  - destruct (each_applied_indexed f (S k) x y w1) as [vs w2|e2 w2|] eqn:Hrest;
      [done| |done].
    intros [= -> ->].
    destruct (IH _ _ _ _ _ Hrest) as (j & xj & yj & w0 & Hx & Hy & Hi & Hc).
    exists (S j), xj, yj, w0. split_and!; [done..| |done].
    rewrite Hi. f_equal. lia.
  - intros [= -> ->].
    exists 0, xk, yk, (set_CurrentMapIndex (N.of_nat k) w).
    split_and!; [done..| |done]. simpl. f_equal. lia.
Qed.

Lemma Map_binary_body_outcome order f fuel x y res w :
  keeps_index f →
  length y = length x → (N.of_nat (length x) ≤ SIZE_MAX)%N → length x < fuel →
  match Map_binary_body order f fuel x y (res, w),
        each_applied_indexed f 0 x y w with
  | Returns _ s, Returns out w' =>
      s = (out, set_CurrentMapIndex SIZE_MAX w') ∧ length out = length x
  | Throws e s, Throws e' w' => e = e' ∧ s.2 = w' ∧ length s.1 = length x
  | OutOfFuel, OutOfFuel => True
  | _, _ => False
  end.
Proof.
  intros Hf Hlen Hmax Hfuel.
  rewrite Map_binary_body_as_specified by done.
  unfold Map_binary_as_specified. rewrite decide_True by done.
  erewrite bind_Returns by reflexivity.
  erewrite bind_Returns by reflexivity. cbn [fst snd].
  pose proof (Map_binary_indexed_each_applied f x y 0
                (resize (length x) res) w (eq_sym Hlen)) as H.
  rewrite length_resize in H. specialize (H ltac:(simpl; lia)).
  unfold bind at 1.
  destruct (Map_binary_indexed f 0 x y _) as [u s|e s|],
           (each_applied_indexed f 0 x y w) as [out w'|e' w'|]; try done.
  destruct H as [-> Hout]. split; [|done]. simpl.
  rewrite drop_ge by (rewrite length_resize; lia).
  by rewrite app_nil_r.
Qed.

Lemma each_applied_indexed_Returns f :
  ∀ x y k w out w',
    length x = length y →
    each_applied_indexed f k x y w = Returns out w' →
    length out = length x
    ∧ ∀ j xj yj,
        x !! j = Some xj → y !! j = Some yj →
        ∃ v w0 w1,
          out !! j = Some v
          ∧ CurrentMapIndex w0 = N.of_nat (k + j)
          ∧ call f xj yj w0 = Returns v w1.
Proof.
  induction x as [|xk x IH]; intros [|yk y] k w out w' Hlen; try done.
  - intros [= <- _]. split; [done|]. by intros j xj yj.
  - injection Hlen as Hlen. rewrite each_applied_indexed_cons.
    destruct (call f xk yk _) as [v w1|e1 w1|] eqn:Hcall; [|done..].
    destruct (each_applied_indexed f (S k) x y w1) as [vs w2|e2 w2|] eqn:Hrest;
      [|done..].
    intros [= <- <-]. destruct (IH _ _ _ _ _ Hlen Hrest) as [Hvs Hat].
    split; [simpl; by rewrite Hvs|].
    intros [|j] xj yj Hx Hy; simplify_eq/=.
    + exists v, (set_CurrentMapIndex (N.of_nat k) w), w1.
      split_and!; [done| |done]. simpl. f_equal. lia.
    + destruct (Hat j xj yj Hx Hy) as (u & w0 & w3 & Hu & Hi & Hc).
      exists u, w0, w3. split_and!; [done| |done]. rewrite Hi. f_equal. lia.
Qed.

(** C4, as the code has it. [Map] over any binary model on inputs of
    different lengths stops at its assertion with the output and the
    process as they were. On inputs of one length (that a [size_t] can
    hold): for a model that computes a function [g] the output has that
    length and its element [i] is [g] of the elements [i] of the two
    inputs; for any model that leaves the map index as it found it, the run
    returns when the calls on the pairs, made in order, all return, and an
    output it returns has the length of the inputs and holds at place [i]
    the value that a call of the model on the elements [i] returned. A
    model that does not leave the index as it found it is outside this. *)
Theorem Map_binary_lengths order (f : BinaryModel)
    (g : CNTK_Variable → CNTK_Variable → CNTK_Variable)
    (p : ModelParametersPtr) fuel x y res w :
  (∃ m, Map_binary order f = Ok m ∧ call m = Map_binary_body order f)
  ∧ (length y ≠ length x →
     Map_binary_body order f fuel x y (res, w)
     = Throws (AssertionFailed "y.size() == x.size()") (res, w))
  ∧ (length y = length x →
     (N.of_nat (length x) ≤ SIZE_MAX)%N → length x < fuel →
     (Map_binary_body order (pure_binary g p) fuel x y (res, w)
      = Returns tt (zip_with g x y, set_CurrentMapIndex SIZE_MAX w)
      ∧ length (zip_with g x y) = length x
      ∧ ∀ i xi yi, x !! i = Some xi → y !! i = Some yi →
          zip_with g x y !! i = Some (g xi yi))
     ∧ (keeps_index f →
        (∀ out w'',
           each_applied_indexed f 0 x y w = Returns out w'' →
           Map_binary_body order f fuel x y (res, w)
           = Returns tt (out, set_CurrentMapIndex SIZE_MAX w''))
        ∧ (∀ out w',
             Map_binary_body order f fuel x y (res, w)
             = Returns tt (out, w') →
             length out = length x
             ∧ ∀ i xi yi, x !! i = Some xi → y !! i = Some yi →
                 ∃ v w0 w1,
                   out !! i = Some v
                   ∧ CurrentMapIndex w0 = N.of_nat i
                   ∧ call f xi yi w0 = Returns v w1))).
Proof.
  split_and!.
  - eexists. split; [apply TModel_new_empty | done].
  - apply Map_binary_body_mismatch.
  - intros Hlen Hmax Hfuel. split; [split_and!|].
    + by apply Map_binary_body_pure.
    + rewrite length_zip_with. lia.
    + intros i xi yi Hx Hy. rewrite lookup_zip_with, Hx. simpl. by rewrite Hy.
    + intros Hf.
      pose proof (Map_binary_body_outcome order f fuel x y res w
                    Hf Hlen Hmax Hfuel) as H.
      split.
      * intros out w'' Hcalls. rewrite Hcalls in H.
        destruct (Map_binary_body order f fuel x y (res, w)) as [[] s|e s|];
          try done.
        by destruct H as [-> _].
      * intros out w' Hrun. rewrite Hrun in H.
        destruct (each_applied_indexed f 0 x y w) as [out0 w0|e' w0|] eqn:Hcalls;
          try done.
        destruct H as [[= -> _] _].
        exact (each_applied_indexed_Returns f x y 0 w out0 w0
                 (eq_sym Hlen) Hcalls).
Qed.

(** X12. [Map] over a binary model that has effects but leaves the index
    as it found it, on inputs of one length: the run returns exactly when
    the calls on the pairs, made one after the other with the index showing
    the place of the pair, all return; the output is the list of their
    values, as long as the inputs, and the index is back at [SIZE_MAX].
    When the call for a pair throws, the throw goes through [Map] with the
    process as that call left it: the index is not set back. *)
Theorem Map_binary_effectful order f fuel x y res w :
  keeps_index f →
  length y = length x → (N.of_nat (length x) ≤ SIZE_MAX)%N → length x < fuel →
  (∀ out w',
     Map_binary_body order f fuel x y (res, w) = Returns tt (out, w')
     ↔ ∃ w'', each_applied_indexed f 0 x y w = Returns out w''
              ∧ w' = set_CurrentMapIndex SIZE_MAX w'')
  ∧ (∀ out w',
       Map_binary_body order f fuel x y (res, w) = Returns tt (out, w') →
       length out = length x)
  ∧ (∀ e w',
       each_applied_indexed f 0 x y w = Throws e w' →
       (∃ res', Map_binary_body order f fuel x y (res, w)
                = Throws e (res', w'))
       ∧ ∃ k xk yk w0,
           x !! k = Some xk ∧ y !! k = Some yk
           ∧ CurrentMapIndex w0 = N.of_nat k
           ∧ call f xk yk w0 = Throws e w').
Proof.
  intros Hf Hlen Hmax Hfuel.
  pose proof (Map_binary_body_outcome order f fuel x y res w
                Hf Hlen Hmax Hfuel) as H.
  split_and!.
  - intros out w'.
    destruct (Map_binary_body order f fuel x y (res, w)) as [[] s|e s|],
             (each_applied_indexed f 0 x y w) as [out0 w0|e' w0|];
      try done; try (split; [done | by intros (? & ? & ?)]).
    destruct H as [-> _]. split.
    + intros [= <- <-]. by exists w0.
    + by intros (w'' & [= <- <-] & ->).
  - intros out w' Hrun. rewrite Hrun in H.
    destruct (each_applied_indexed f 0 x y w) as [out0 w0|e' w0|]; try done.
    destruct H as [[= -> _] Hout]. done.
  - intros e w' Hthrow. split.
    + rewrite Hthrow in H.
      destruct (Map_binary_body order f fuel x y (res, w)) as [u s|e0 [r0 w0]|];
        try done.
      destruct H as (-> & Hw & _). simpl in Hw. subst. by exists r0.
    + exact (each_applied_indexed_Throws f x y 0 w e w' Hthrow).
Qed.

End effectful_facts.

(** ** [Map] over a sequence model, on batches *)

Section batch_map_facts.
Context `{CNTK : CNTKLibrary}.
Implicit Types (x y res : list CNTK_Variable) (w : World LibraryState).
Implicit Types (xBatch yBatch : list (list CNTK_Variable)).
Implicit Types (f : BinarySequenceModel).

Lemma for_each_cons {S A : Type} (a : A) (l : list A) (body : A → M S unit) s :
  for_each (a :: l) body s =
    match body a s with
    | Returns _ s' => for_each l body s'
    | Throws e s' => Throws e s'
    | OutOfFuel => OutOfFuel
    end.
Proof. done. Qed.

Lemma Map_batch_step_middle f fuel xa ya xi yi xb yb
    (done_rows rest : list (list CNTK_Variable)) w :
  length xa = length done_rows → length ya = length done_rows →
  Map_batch_step f fuel (xa ++ xi :: xb) (ya ++ yi :: yb) (length done_rows)
    (done_rows ++ [] :: rest, w) =
    match call f fuel xi yi ([], w) with
    | Returns _ s => Returns tt (done_rows ++ s.1 :: rest, s.2)
    | Throws e s => Throws e (done_rows ++ s.1 :: rest, s.2)
    | OutOfFuel => OutOfFuel
    end.
Proof.
  intros Hxa Hya. unfold Map_batch_step. cbn [fst snd].
  rewrite list_lookup_middle by done.
  rewrite list_lookup_middle by done.
  rewrite list_lookup_middle by done.
  destruct (call f fuel xi yi ([], w)) as [u s|e s|]; [| |done];
    by rewrite insert_app_r_alt, Nat.sub_diag by lia.
Qed.

Lemma Map_batch_loop f fuel :
  ∀ xb yb xa ya (done_rows : list (list CNTK_Variable)) w,
    length xa = length done_rows → length ya = length done_rows →
    length xb = length yb →
    match for_each (seq (length done_rows) (length xb))
            (Map_batch_step f fuel (xa ++ xb) (ya ++ yb))
            (done_rows ++ replicate (length xb) [], w),
          rows_applied f fuel xb yb w with
    | Returns _ s, Returns rs w' =>
        s = (done_rows ++ rs, w') ∧ length rs = length xb
    | Throws e s, Throws e' w' => e = e' ∧ s.2 = w'
    | OutOfFuel, OutOfFuel => True
    | _, _ => False
    end.
Proof.
  induction xb as [|xi xb IH]; intros [|yi yb] xa ya done_rows w Hxa Hya Hlen;
    try done.
  injection Hlen as Hlen. cbn [length seq replicate rows_applied].
  rewrite for_each_cons, Map_batch_step_middle by done.
  destruct (call f fuel xi yi ([], w)) as [u [ri w1]|e [ri w1]|]; [|done..].
  cbn [fst snd].
  specialize (IH yb (xa ++ [xi]) (ya ++ [yi]) (done_rows ++ [ri]) w1).
  specialize (IH ltac:(rewrite !length_app; simpl; lia)
                 ltac:(rewrite !length_app; simpl; lia) Hlen).
  rewrite length_app, <- !app_assoc in IH. simpl in IH.
  rewrite Nat.add_1_r in IH.
  match goal with
  | |- context [for_each ?l ?b ?s] => destruct (for_each l b s) as [u' s'|e s'|]
  end; destruct (rows_applied f fuel xb yb w1) as [rs w2|e' w2|]; try done.
  destruct IH as [-> Hrs]. simpl. by rewrite Hrs, <- app_assoc.
Qed.

Lemma Map_batch_rows_applied f fuel xBatch yBatch w :
  length yBatch = length xBatch →
  Map_batch f fuel xBatch yBatch w = rows_applied f fuel xBatch yBatch w.
Proof.
  intros Hlen. unfold Map_batch. rewrite decide_True by done.
  pose proof (Map_batch_loop f fuel xBatch yBatch [] [] [] w
                eq_refl eq_refl (eq_sym Hlen)) as H.
  simpl in H.
  match goal with
  | |- context [for_each ?l ?b ?s] => destruct (for_each l b s) as [u s'|e s'|]
  end; destruct (rows_applied f fuel xBatch yBatch w) as [rs w'|e' w'|];
    try done.
  - by destruct H as [-> _].
  - by destruct H as [-> ->].
Qed.

Lemma rows_applied_length f fuel :
  ∀ xBatch yBatch w out w',
    length yBatch = length xBatch →
    rows_applied f fuel xBatch yBatch w = Returns out w' →
    length out = length xBatch.
Proof.
  induction xBatch as [|xi xb IH]; intros [|yi yb] w out w' Hlen;
    simplify_eq/=.
  - unfold ret. by intros [= <- _].
  - destruct (call f fuel xi yi ([], w)) as [u s|e s|]; [|done..].
    destruct (rows_applied f fuel xb yb s.2) as [rs w2|e w2|] eqn:Hrest;
      [|done..].
    intros [= <- _]. simpl. f_equal. by eapply IH.
Qed.

Lemma rows_applied_pure order
    (g : CNTK_Variable → CNTK_Variable → CNTK_Variable) p fuel :
  ∀ xBatch yBatch w,
    Forall2 (fun xi yi => length yi = length xi) xBatch yBatch →
    Forall (fun xi => length xi < fuel
                      ∧ (N.of_nat (length xi) ≤ SIZE_MAX)%N) xBatch →
    rows_applied
      (mkTModel (Map_binary_body order (pure_binary g p))
         (Some (mkModelParameters [] (nonnull [("f"%string, p)]))))
      fuel xBatch yBatch w
    = Returns (zip_with (zip_with g) xBatch yBatch)
        (match xBatch with
         | [] => w
         | _ => set_CurrentMapIndex SIZE_MAX w
         end).
Proof.
  intros xBatch yBatch w Hrows. revert w.
  induction Hrows as [|xi yi xb yb Hi _ IH]; intros w Hfuel; [done|].
  apply Forall_cons in Hfuel as [[Hf Hmax] Hfuel].
  cbn [rows_applied call].
  rewrite Map_binary_body_pure by done. cbn [fst snd].
  rewrite (IH _ Hfuel). simpl. f_equal.
  destruct xb; [done|]. apply set_CurrentMapIndex_twice.
Qed.

(** X13. [Map] over a sequence model, on two batches. Batches of different
    sizes end at the assertion with the process untouched. On batches of
    one size the sequence model is called on the pairs of rows in order,
    each time on an output that starts empty, and the outputs come back in
    that order, one for each row. For [Map] over a binary model that
    computes a function [g], on rows that pairwise have one length, the
    result is [g] on the elements at the same row and place; the map index
    shows [SIZE_MAX] afterwards unless the batches were empty. *)
Theorem Map_batch_rows order f
    (g : CNTK_Variable → CNTK_Variable → CNTK_Variable)
    (p : ModelParametersPtr) fuel xBatch yBatch w :
  (length yBatch ≠ length xBatch →
   Map_batch f fuel xBatch yBatch w
   = Throws (AssertionFailed "yBatch.size() == xBatch.size()") w)
  ∧ (length yBatch = length xBatch →
     Map_batch f fuel xBatch yBatch w = rows_applied f fuel xBatch yBatch w
     ∧ ∀ out w', Map_batch f fuel xBatch yBatch w = Returns out w' →
         length out = length xBatch)
  ∧ (Forall2 (fun xi yi => length yi = length xi) xBatch yBatch →
     Forall (fun xi => length xi < fuel
                       ∧ (N.of_nat (length xi) ≤ SIZE_MAX)%N) xBatch →
     ∃ m, Map_binary order (pure_binary g p) = Ok m
       ∧ Map_batch m fuel xBatch yBatch w
         = Returns (zip_with (zip_with g) xBatch yBatch)
             (match xBatch with
              | [] => w
              | _ => set_CurrentMapIndex SIZE_MAX w
              end)).
Proof.
  split_and!.
  - intros Hne. unfold Map_batch. by rewrite decide_False.
  - intros Hlen. split; [by apply Map_batch_rows_applied|].
    intros out w'. rewrite Map_batch_rows_applied by done.
    by apply rows_applied_length.
  - intros Hrows Hfuel. eexists. split.
    { unfold Map_binary. rewrite TModel_new_empty. reflexivity. }
    rewrite Map_batch_rows_applied
      by (symmetry; by eapply Forall2_length).
    simpl. destruct p as [r|]; by apply rows_applied_pure.
Qed.

End batch_map_facts.

(** ** The properties above on the small library *)


Lemma Parameters_in_name_order_witness :
  ∃ m l,
    TModel_with_parameters (CNTK := demo_library) [3%N; 4%N; 1%N] tt = Ok m
    ∧ call m = tt
    ∧ Parameters m = Ok l
    ∧ l ≡ₚ [3%N; 4%N; 1%N]
    ∧ StronglySorted
        (fun p q => String.compare (demo_Name p) (demo_Name q) = Lt) l
    ∧ ∀ p, p ∈ [3%N; 4%N; 1%N] → TModel_index m (demo_Name p) = Ok p.
Proof.
  apply (Parameters_in_name_order (CNTK := demo_library) [3%N; 4%N; 1%N] tt).
  - intros p Hp.
    apply elem_of_cons in Hp as [->|Hp]; [done|].
    apply elem_of_cons in Hp as [->|Hp]; [done|].
    apply elem_of_cons in Hp as [->|Hp]; [done|].
    by apply elem_of_nil in Hp.
  - simpl. repeat (constructor; [set_solver|]). constructor.
Defined.

Lemma Map_binary_effectful_witness :
  keeps_index demo_counting
  ∧ Map_binary_body call_then_element demo_counting 3
      [6%N; 8%N] [2%N; 4%N] ([], demo_world)
    = Returns tt ([4%N; 4%N], mkWorld SIZE_MAX 2 tt)
  ∧ ∃ res',
      Map_binary_body element_then_call demo_counting 3
        [6%N; 8%N] [2%N; 0%N] ([], demo_world)
      = Throws (LogicError "division by zero") (res', mkWorld 1 1 tt).
Proof.
  assert (keeps_index demo_counting) as Hk.
  { intros a b w v w'. simpl. destruct (b =? 0)%N; [done|].
    unfold bind, CountAPICalls, ret. by intros [= _ <-]. }
  split; [exact Hk|]. split.
  - apply (proj1 (Map_binary_effectful (CNTK := demo_library)
             call_then_element demo_counting 3
             [6%N; 8%N] [2%N; 4%N] [] demo_world
             Hk eq_refl ltac:(by vm_compute) ltac:(simpl; lia))).
    by exists (mkWorld 1 2 tt).
  - apply (proj2 (proj2 (Map_binary_effectful (CNTK := demo_library)
             element_then_call demo_counting 3
             [6%N; 8%N] [2%N; 0%N] [] demo_world
             Hk eq_refl ltac:(by vm_compute) ltac:(simpl; lia)))).
    reflexivity.
Defined.

Lemma Map_batch_rows_witness :
  Map_batch (CNTK := demo_library)
      (mkTModel (Map_binary_body call_then_element demo_add) None) 3
      [[1%N]] [] demo_world
    = Throws (AssertionFailed "yBatch.size() == xBatch.size()") demo_world
  ∧ ∃ m,
      Map_binary call_then_element (pure_binary (CNTK := demo_library) N.add None)
        = Ok m
      ∧ Map_batch m 3 [[1%N; 2%N]; [3%N]] [[10%N; 20%N]; [30%N]] demo_world
        = Returns [[11%N; 22%N]; [33%N]] demo_world.
Proof.
  split.
  - apply (proj1 (Map_batch_rows (CNTK := demo_library) call_then_element
             (mkTModel (Map_binary_body call_then_element demo_add) None)
             N.add None 3 [[1%N]] [] demo_world)).
    simpl. lia.
  - apply (proj2 (proj2 (Map_batch_rows (CNTK := demo_library)
             call_then_element
             (mkTModel (Map_binary_body call_then_element demo_add) None)
             N.add None 3 [[1%N; 2%N]; [3%N]] [[10%N; 20%N]; [30%N]]
             demo_world))).
    + by repeat constructor.
    + repeat constructor; simpl; try lia; by vm_compute.
Defined.

Lemma Map_binary_lengths_witness :
  Map_binary_body element_then_call demo_add 4
      [1%N; 2%N; 3%N] [10%N; 20%N] ([7%N], demo_world)
    = Throws (AssertionFailed "y.size() == x.size()") ([7%N], demo_world)
  ∧ Map_binary_body call_then_element demo_add 4
      [1%N; 2%N; 3%N] [10%N; 20%N; 30%N] ([7%N], demo_world)
    = Returns tt ([11%N; 22%N; 33%N], demo_world)
  ∧ keeps_index demo_counting
  ∧ Map_binary_body element_then_call demo_counting 3
      [6%N; 8%N] [2%N; 4%N] ([7%N], demo_world)
    = Returns tt ([4%N; 4%N], mkWorld SIZE_MAX 2 tt).
Proof.
  assert (keeps_index demo_counting) as Hk.
  { intros a b w v w'. simpl. destruct (b =? 0)%N; [done|].
    unfold bind, CountAPICalls, ret. by intros [= _ <-]. }
  split_and!.
  - apply (proj1 (proj2 (Map_binary_lengths (CNTK := demo_library)
             element_then_call demo_add N.add None 4
             [1%N; 2%N; 3%N] [10%N; 20%N] [7%N] demo_world))).
    simpl. lia.
  - apply (proj1 (proj1 (proj2 (proj2 (Map_binary_lengths (CNTK := demo_library)
             call_then_element demo_add N.add None 4
             [1%N; 2%N; 3%N] [10%N; 20%N; 30%N] [7%N] demo_world))
             eq_refl ltac:(by vm_compute) ltac:(simpl; lia)))).
  - exact Hk.
  - apply (proj1 (proj2 (proj2 (proj2 (Map_binary_lengths (CNTK := demo_library)
             element_then_call demo_counting N.add None 3
             [6%N; 8%N] [2%N; 4%N] [7%N] demo_world))
             eq_refl ltac:(by vm_compute) ltac:(simpl; lia)) Hk)
             [4%N; 4%N] (mkWorld 1 2 tt) eq_refl).
Defined.

(** Inputs of one length and a model that maps inside its body. Each of
    its calls returns the sum of its two arguments, and leaves the index at
    [SIZE_MAX]. [Map] over it on two sequences of two elements gives no
    output of two elements: when the element is designated after the call
    the run ends at [res[SIZE_MAX]], when it is designated before the loop
    starts again at place [0] for ever. *)
Lemma Map_binary_equal_lengths_reentrant :
  (∀ order a b i,
     call (demo_reentrant order) a b (set_CurrentMapIndex i demo_world)
     = Returns (a + b)%N demo_world)
  ∧ Map_binary_body call_then_element (demo_reentrant call_then_element) 3
      [1%N; 2%N] [10%N; 20%N] ([], demo_world)
    = Throws (UndefinedBehavior "vector subscript out of range")
        ([0%N; 0%N], demo_world)
  ∧ (∀ fuel,
       Map_binary_body element_then_call (demo_reentrant element_then_call)
         fuel [1%N; 2%N] [10%N; 20%N] ([], demo_world)
       = OutOfFuel).
Proof.
  assert (∀ fuel v v',
            Map_binary_loop element_then_call fuel
              (demo_reentrant element_then_call) [1%N; 2%N] [10%N; 20%N]
              ([v; v'], set_CurrentMapIndex 0 demo_world)
            = OutOfFuel) as Hloop.
  { induction fuel as [|fuel IH]; intros v v'; [reflexivity|].
    exact (IH 11%N v'). }
  split; [by intros [] a b i|]. split; [reflexivity|].
  intros fuel. unfold Map_binary_body.
  rewrite decide_True by done.
  erewrite bind_Returns by reflexivity.
  erewrite bind_Returns by reflexivity.
  erewrite bind_Returns by reflexivity.
  apply bind_OutOfFuel. exact (Hloop fuel 0%N 0%N).
Qed.
